(** * Wallet metadata ([src/wallet/meta/meta.go])

    A shallow embedding of the [meta] package of the wallet: the [Meta]
    record (a Go [map[string]string] with typed accessors), its compound
    operations ([Clone], [EraseSeeds], [SetEncrypted], [SetDecrypted]) and
    the free function [ResolveCoinType], together with the parts of Go's
    [strconv], [strings] and [unicode/utf8] packages these call.

    Go strings are byte sequences: they are Rocq [string]s, whose characters
    are 8-bit [ascii] values.  Fixed-width integers are [Z] with every
    conversion written out.  A Go result pair [(v, err)] is a Rocq pair whose
    second component is [None] for [nil]; a panic is a separate outcome. *)

From Stdlib Require Import ZArith Lia String Ascii List.
From stdpp Require Import gmap strings.

Open Scope string_scope.
Open Scope Z_scope.

(** ** Go values shared by the packages below *)

(** The sentinel a [strconv.NumError] wraps. *)
Inductive numErr : Type :=
| ErrSyntax
| ErrRange.

(** Go's [error] interface, restricted to the two dynamic types this package
    can produce: [errors.New] strings and [*strconv.NumError]. *)
Inductive error : Type :=
| errorString (s : string)
| NumError (Func Num : string) (Err : numErr).

(** Outcome of a call that may panic. *)
Inductive outcome (A : Type) : Type :=
| Return (a : A)
| Panic (e : error).
Arguments Return {A} a.
Arguments Panic {A} e.

Definition byte_of (a : ascii) : Z := Z.of_N (N_of_ascii a).
Definition ascii_of (b : Z) : ascii := ascii_of_N (Z.to_N b).

(** The string with the given byte values. *)
Definition bytes (l : list Z) : string :=
  fold_right (fun b s => String (ascii_of b) s) EmptyString l.

(** Two's-complement reading of the low 64 bits: the conversion [int64(u)]
    and the result of [int64] negation. *)
Definition int64 (z : Z) : Z := (z + 2 ^ 63) mod 2 ^ 64 - 2 ^ 63.
Definition uint64 (z : Z) : Z := z mod 2 ^ 64.
Definition uint32 (z : Z) : Z := z mod 2 ^ 32.

(** ** Package [strconv], base 10 *)
Module strconv.

Definition syntaxError (fn str : string) : error := NumError fn str ErrSyntax.
Definition rangeError (fn str : string) : error := NumError fn str ErrRange.

(** [strconv.ParseBool]. *)
Definition ParseBool (str : string) : bool * option error :=
  if bool_decide (str ∈ ["1"; "t"; "T"; "true"; "TRUE"; "True"]) then (true, None)
  else if bool_decide (str ∈ ["0"; "f"; "F"; "false"; "FALSE"; "False"]) then (false, None)
  else (false, Some (syntaxError "ParseBool" str)).

(** [strconv.FormatBool]. *)
Definition FormatBool (b : bool) : string := if b then "true" else "false".

Definition maxUint64 : Z := 2 ^ 64 - 1.

(** The digit loop of [strconv.ParseUint(s, 10, bitSize)]: [n] is the
    [uint64] accumulator, [cs] the bytes still to read.  With base 10 a
    byte outside ['0'..'9'] is a syntax error (a letter is a digit value of
    at least 10, which the base rejects; an underscore is only accepted
    with base 0). *)
Fixpoint ParseUint_loop (s0 : string) (maxVal : Z) (cs : string) (n : Z)
  : Z * option error :=
  match cs with
  | EmptyString => (n, None)
  | String c cs' =>
      let c := byte_of c in
      if (48 <=? c) && (c <=? 57) then
        let d := c - 48 in
        if maxUint64 / 10 + 1 <=? n then (maxVal, Some (rangeError "ParseUint" s0))
        else
          let n := uint64 (n * 10) in
          let n1 := uint64 (n + d) in
          if (n1 <? n) || (maxVal <? n1) then (maxVal, Some (rangeError "ParseUint" s0))
          else ParseUint_loop s0 maxVal cs' n1
      else (0, Some (syntaxError "ParseUint" s0))
  end.

(** [strconv.ParseUint(s, 10, bitSize)] for [1 <= bitSize <= 64]. *)
Definition ParseUint (s : string) (bitSize : Z) : Z * option error :=
  if bool_decide (s = "") then (0, Some (syntaxError "ParseUint" s))
  else ParseUint_loop s (2 ^ bitSize - 1) s 0.

(** [strconv.ParseInt(s, 10, bitSize)] for [1 <= bitSize <= 64]: an optional
    sign, then [ParseUint]; a range error of [ParseUint] is not returned at
    once, the clamped value goes through the signed range check. *)
Definition ParseInt (s0 : string) (bitSize : Z) : Z * option error :=
  match s0 with
  | EmptyString => (0, Some (syntaxError "ParseInt" s0))
  | String c rest =>
      let neg := bool_decide (c = "-"%char) in
      let s := if bool_decide (c = "+"%char) || neg then rest else s0 in
      let '(un, err) := ParseUint s bitSize in
      match err with
      | Some (NumError _ _ ErrSyntax) | Some (errorString _) =>
          (0, Some (syntaxError "ParseInt" s0))
      | _ =>
          let cutoff := 2 ^ (bitSize - 1) in
          if negb neg && (cutoff <=? un) then (int64 (cutoff - 1), Some (rangeError "ParseInt" s0))
          else if neg && (cutoff <? un) then (int64 (- int64 cutoff), Some (rangeError "ParseInt" s0))
          else
            let n := int64 un in
            (if neg then int64 (- n) else n, None)
      end
  end.

Definition digit (d : Z) : ascii := ascii_of (48 + d).

(** The digit loop of [strconv.FormatUint(u, 10)]: digits are produced from
    the least significant one and written in front of [acc]. *)
Fixpoint formatBits (fuel : nat) (u : Z) (acc : string) : string :=
  match fuel with
  | O => acc
  | S fuel' =>
      let acc' := String (digit (u mod 10)) acc in
      if u <? 10 then acc' else formatBits fuel' (u / 10) acc'
  end.

(** [strconv.FormatUint(u, 10)]; a [uint64] has at most 20 digits. *)
Definition FormatUint (u : Z) : string := formatBits 20 u "".

(** [strconv.FormatInt(i, 10)]: the magnitude is formatted as a [uint64]
    after a leading minus sign. *)
Definition FormatInt (i : Z) : string :=
  if i <? 0 then String "-"%char (FormatUint (uint64 (- i))) else FormatUint (uint64 i).

End strconv.

(** ** Package [unicode/utf8] *)
Module utf8.

Definition RuneError : Z := 0xFFFD.
Definition RuneSelf : Z := 0x80.
Definition MaxRune : Z := 0x10FFFF.

Definition byte (z : Z) : Z := z mod 2 ^ 8.

(** An entry of the table [first], indexed by the first byte of a sequence:
    ASCII, invalid, or the length of the sequence with the range accepted for
    its second byte. *)
Inductive lead : Type :=
| as_ascii
| xx
| sz (size : nat) (lo hi : Z).

Definition first (b : Z) : lead :=
  if b <? 0x80 then as_ascii
  else if b <? 0xC2 then xx
  else if b <? 0xE0 then sz 2 0x80 0xBF
  else if b =? 0xE0 then sz 3 0xA0 0xBF
  else if b <? 0xED then sz 3 0x80 0xBF
  else if b =? 0xED then sz 3 0x80 0x9F
  else if b <? 0xF0 then sz 3 0x80 0xBF
  else if b =? 0xF0 then sz 4 0x90 0xBF
  else if b <? 0xF4 then sz 4 0x80 0xBF
  else if b =? 0xF4 then sz 4 0x80 0x8F
  else xx.

Definition locb : Z := 0x80.
Definition hicb : Z := 0xBF.

(** [utf8.DecodeRuneInString]: the first rune of [s] and its width in bytes;
    an invalid or truncated sequence gives [(RuneError, 1)]. *)
Definition DecodeRuneInString (s : string) : Z * nat :=
  match s with
  | EmptyString => (RuneError, 0%nat)
  | String a0 t0 =>
      let s0 := byte_of a0 in
      match first s0 with
      | as_ascii => (s0, 1%nat)
      | xx => (RuneError, 1%nat)
      | sz size lo hi =>
          if (String.length s <? size)%nat then (RuneError, 1%nat)
          else
            match t0 with
            | EmptyString => (RuneError, 1%nat)
            | String a1 t1 =>
                let s1 := byte_of a1 in
                if (s1 <? lo) || (hi <? s1) then (RuneError, 1%nat)
                else if (size <=? 2)%nat then
                  (Z.lor (Z.shiftl (Z.land s0 0x1F) 6) (Z.land s1 0x3F), 2%nat)
                else
                  match t1 with
                  | EmptyString => (RuneError, 1%nat)
                  | String a2 t2 =>
                      let s2 := byte_of a2 in
                      if (s2 <? locb) || (hicb <? s2) then (RuneError, 1%nat)
                      else if (size <=? 3)%nat then
                        (Z.lor (Z.lor (Z.shiftl (Z.land s0 0x0F) 12)
                                      (Z.shiftl (Z.land s1 0x3F) 6))
                               (Z.land s2 0x3F), 3%nat)
                      else
                        match t2 with
                        | EmptyString => (RuneError, 1%nat)
                        | String a3 _ =>
                            let s3 := byte_of a3 in
                            if (s3 <? locb) || (hicb <? s3) then (RuneError, 1%nat)
                            else
                              (Z.lor (Z.lor (Z.lor (Z.shiftl (Z.land s0 0x07) 18)
                                                   (Z.shiftl (Z.land s1 0x3F) 12))
                                            (Z.shiftl (Z.land s2 0x3F) 6))
                                     (Z.land s3 0x3F), 4%nat)
                        end
                  end
            end
      end
  end.

Definition encode3 (r : Z) : string :=
  bytes [Z.lor 0xE0 (byte (Z.shiftr r 12));
         Z.lor 0x80 (Z.land (byte (Z.shiftr r 6)) 0x3F);
         Z.lor 0x80 (Z.land (byte r) 0x3F)].

(** [utf8.AppendRune] on an empty buffer: the UTF-8 encoding of [r]; a
    surrogate or a value above [MaxRune] is encoded as [RuneError]. *)
Definition EncodeRune (r : Z) : string :=
  let i := uint32 r in
  if i <=? 0x7F then bytes [byte r]
  else if i <=? 0x7FF then
    bytes [Z.lor 0xC0 (byte (Z.shiftr r 6)); Z.lor 0x80 (Z.land (byte r) 0x3F)]
  else if (MaxRune <? i) || ((0xD800 <=? i) && (i <=? 0xDFFF)) then encode3 RuneError
  else if i <=? 0xFFFF then encode3 r
  else
    bytes [Z.lor 0xF0 (byte (Z.shiftr r 18));
           Z.lor 0x80 (Z.land (byte (Z.shiftr r 12)) 0x3F);
           Z.lor 0x80 (Z.land (byte (Z.shiftr r 6)) 0x3F);
           Z.lor 0x80 (Z.land (byte r) 0x3F)].

End utf8.

(** ** Packages [strings] and [unicode] *)
Module gostrings.

Fixpoint skip (n : nat) (s : string) : string :=
  match n, s with
  | S n', String _ s' => skip n' s'
  | _, _ => s
  end.

(** [strings.Map(mapping, s)]: every rune of [s] (an invalid byte reads as
    [RuneError]) is replaced by the encoding of its image, and dropped when
    the image is negative.  The library copies an unchanged prefix of [s]
    as it is, which gives the same bytes.  Each step consumes at least one
    byte, so [String.length s] steps read the whole string. *)
Fixpoint Map_loop (fuel : nat) (mapping : Z -> Z) (s : string) : string :=
  match fuel with
  | O => EmptyString
  | S fuel' =>
      match s with
      | EmptyString => EmptyString
      | String _ _ =>
          let '(c, width) := utf8.DecodeRuneInString s in
          let r := mapping c in
          String.append (if 0 <=? r then utf8.EncodeRune r else EmptyString)
                        (Map_loop fuel' mapping (skip width s))
      end
  end.

Definition Map (mapping : Z -> Z) (s : string) : string :=
  Map_loop (String.length s) mapping s.

Fixpoint isASCII (s : string) : bool :=
  match s with
  | EmptyString => true
  | String c s' => if utf8.RuneSelf <=? byte_of c then false else isASCII s'
  end.

Definition isUpper (c : Z) : bool := (65 <=? c) && (c <=? 90).

Fixpoint hasUpper (s : string) : bool :=
  match s with
  | EmptyString => false
  | String c s' => isUpper (byte_of c) || hasUpper s'
  end.

(** The ASCII path of [strings.ToLower]: ['A'..'Z'] move by ['a' - 'A']. *)
Fixpoint lowerASCII (s : string) : string :=
  match s with
  | EmptyString => EmptyString
  | String c s' =>
      let b := byte_of c in
      String (if isUpper b then ascii_of (b + (97 - 65)) else c) (lowerASCII s')
  end.

Section ToLower.

(** The lower-case mapping of [unicode.CaseRanges] on the runes above
    [unicode.MaxASCII]: the table is data of Go's [unicode] package, so the
    development is parametric in it. *)
Variable caseLower : Z -> Z.

(** [unicode.ToLower]. *)
Definition unicode_ToLower (r : Z) : Z :=
  if r <=? 0x7F then (if isUpper r then r + (97 - 65) else r) else caseLower r.

(** [strings.ToLower]. *)
Definition ToLower (s : string) : string :=
  if isASCII s then (if hasUpper s then lowerASCII s else s)
  else Map unicode_ToLower s.

End ToLower.

(** A fragment of the lower-case table, enough to run the non-ASCII path:
    the Latin-1 capitals U+00C0..U+00DE (the sign U+00D7 apart), the capital
    I with dot above U+0130 and the Kelvin sign U+212A; any other rune is
    left as it is. *)
Definition caseLower_fragment (r : Z) : Z :=
  if (0xC0 <=? r) && (r <=? 0xDE) && negb (r =? 0xD7) then r + 32
  else if r =? 0x130 then 0x69
  else if r =? 0x212A then 0x6B
  else r.

End gostrings.

(** ** Package [meta] *)

(** *** Wallet meta fields *)
Definition MetaVersion : string := "version".
Definition MetaFilename : string := "filename".
Definition MetaLabel : string := "label".
Definition MetaTimestamp : string := "tm".
Definition MetaType : string := "type".
Definition MetaCoin : string := "coin".
Definition MetaEncrypted : string := "encrypted".
Definition MetaCryptoType : string := "cryptoType".
Definition MetaSeed : string := "seed".
Definition MetaLastSeed : string := "lastSeed".
Definition MetaSecrets : string := "secrets".
Definition MetaBip44Coin : string := "bip44Coin".
Definition MetaAccountsHash : string := "accountsHash".
Definition MetaSeedPassphrase : string := "seedPassphrase".
Definition MetaXPub : string := "xpub".

(** [type CoinType string]. *)
Definition CoinType : Type := string.
Definition CoinTypeSkycoin : CoinType := "skycoin".
Definition CoinTypeBitcoin : CoinType := "bitcoin".

(** Modelled from the spec: the type [crypto.CryptoType] is declared in
    package [wallet/crypto], whose source is not at hand.  The specification
    gives [cryptoType] as a string, the encryption algorithm identifier; the
    accessors below convert it to and from [string]. *)
Definition crypto_CryptoType : Type := string.

(** Modelled from the spec: the type [bip44.CoinType] is declared in package
    [cipher/bip44], whose source is not at hand.  The specification gives
    [bip44Coin] as a 32-bit unsigned integer, the bit size [Bip44Coin] parses
    with; the conversion [bip44.CoinType(x)] keeps the low 32 bits of [x]. *)
Definition bip44_CoinType (x : Z) : Z := uint32 x.

(** [type Meta map[string]string].  The functions of this section act on the
    contents of one map object: a method that assigns entries returns the new
    contents.  Map values as references that may alias (or be nil) are the
    subject of module [store] below. *)
Abbreviation Meta := (gmap string string).

(** The index expression [m[k]]: the zero value [""] for a missing key. *)
Definition index (m : Meta) (k : string) : string := default "" (m !! k).

(** [Clone]: a new map ([make]) that receives every entry of [m]. *)
Definition Clone (m : Meta) : Meta :=
  map_fold (fun k v (mm : Meta) => <[k := v]> mm) ∅ m.

Definition Find (k : string) (m : Meta) : string := index m k.

(** [Type] is a keyword of Rocq. *)
Definition Type_ (m : Meta) : string := index m MetaType.

Definition Version (m : Meta) : string := index m MetaVersion.
Definition SetVersion (v : string) (m : Meta) : Meta := <[MetaVersion := v]> m.

Definition Filename (m : Meta) : string := index m MetaFilename.
Definition SetFilename (fn : string) (m : Meta) : Meta := <[MetaFilename := fn]> m.

Definition Label (m : Meta) : string := index m MetaLabel.
Definition SetLabel (label : string) (m : Meta) : Meta := <[MetaLabel := label]> m.

Definition LastSeed (m : Meta) : string := index m MetaLastSeed.
Definition SetLastSeed (lseed : string) (m : Meta) : Meta := <[MetaLastSeed := lseed]> m.

Definition Seed (m : Meta) : string := index m MetaSeed.
Definition SetSeed (seed : string) (m : Meta) : Meta := <[MetaSeed := seed]> m.

Definition SeedPassphrase (m : Meta) : string := index m MetaSeedPassphrase.
Definition SetSeedPassphrase (p : string) (m : Meta) : Meta := <[MetaSeedPassphrase := p]> m.

(** [EraseSeeds]: three assignments in sequence. *)
Definition EraseSeeds (m : Meta) : Meta :=
  SetSeedPassphrase "" (SetLastSeed "" (SetSeed "" m)).

Definition Coin (m : Meta) : CoinType := index m MetaCoin.
Definition SetCoin (ct : CoinType) (m : Meta) : Meta := <[MetaCoin := ct]> m.

(** [Bip44Coin]: the comma-ok lookup tells a missing key from a stored one;
    a stored value that [ParseUint] rejects is a panic. *)
Definition Bip44Coin (m : Meta) : outcome (Z * bool) :=
  match m !! MetaBip44Coin with
  | None => Return (bip44_CoinType 0, false)
  | Some c =>
      let '(x, err) := strconv.ParseUint c 32 in
      match err with
      | Some e => Panic e
      | None => Return (bip44_CoinType x, true)
      end
  end.

Definition SetBip44Coin (ct : Z) (m : Meta) : Meta :=
  <[MetaBip44Coin := strconv.FormatUint (uint64 ct)]> m.

Definition setIsEncrypted (encrypt : bool) (m : Meta) : Meta :=
  <[MetaEncrypted := strconv.FormatBool encrypt]> m.

Definition setCryptoType (tp : crypto_CryptoType) (m : Meta) : Meta := <[MetaCryptoType := tp]> m.
Definition CryptoType (m : Meta) : crypto_CryptoType := index m MetaCryptoType.

Definition Secrets (m : Meta) : string := index m MetaSecrets.
Definition setSecrets (s : string) (m : Meta) : Meta := <[MetaSecrets := s]> m.

(** [SetEncrypted]: crypto type, then secrets, then the flag. *)
Definition SetEncrypted (cryptoType : crypto_CryptoType) (encryptedSecrets : string) (m : Meta) : Meta :=
  setIsEncrypted true (setSecrets encryptedSecrets (setCryptoType cryptoType m)).

(** [SetDecrypted]: the flag, then secrets, then crypto type. *)
Definition SetDecrypted (m : Meta) : Meta :=
  setCryptoType "" (setSecrets "" (setIsEncrypted false m)).

(** [IsEncrypted]: [false] for a missing key, a panic for a stored value that
    [ParseBool] rejects. *)
Definition IsEncrypted (m : Meta) : outcome bool :=
  match m !! MetaEncrypted with
  | None => Return false
  | Some encStr =>
      let '(b, err) := strconv.ParseBool encStr in
      match err with
      | Some e => Panic e
      | None => Return b
      end
  end.

(** [Timestamp]: the error of [ParseInt] is dropped, its value is returned. *)
Definition Timestamp (m : Meta) : Z :=
  let '(x, _) := strconv.ParseInt (index m MetaTimestamp) 64 in x.

Definition SetTimestamp (t : Z) (m : Meta) : Meta :=
  <[MetaTimestamp := strconv.FormatInt t]> m.

Definition SetXPub (xpub : string) (m : Meta) : Meta := <[MetaXPub := xpub]> m.
Definition XPub (m : Meta) : string := index m MetaXPub.

Section ResolveCoinType.

Variable caseLower : Z -> Z.

(** [ResolveCoinType]: a switch on the lower-cased input. *)
Definition ResolveCoinType (s : string) : CoinType * option error :=
  let l := gostrings.ToLower caseLower s in
  if bool_decide (l = "sky") || bool_decide (l = "skycoin") then (CoinTypeSkycoin, None)
  else if bool_decide (l = "btc") || bool_decide (l = "bitcoin") then (CoinTypeBitcoin, None)
  else ("", Some (errorString "invalid coin type")).

End ResolveCoinType.

(** ** Map values as references

    A Go map value is a reference to a map object, or nil.  Two values may
    denote the same object; the methods of [Meta] have a value receiver, so an
    assignment through one of them is seen through every other.  A heap holds
    the contents of the allocated map objects. *)
Module store.

Definition loc : Type := positive.

Inductive ref : Type :=
| nil
| ptr (l : loc).

Abbreviation heap := (gmap positive (gmap string string)).

(** References of a running program are nil or allocated. *)
Definition valid (h : heap) (r : ref) : Prop :=
  match r with
  | nil => True
  | ptr l => is_Some (h !! l)
  end.

(** What a reference reads: a nil map reads as an empty one. *)
Definition contents (h : heap) (r : ref) : gmap string string :=
  match r with
  | nil => ∅
  | ptr l => default ∅ (h !! l)
  end.

(** A method that only reads, called on [r]. *)
Definition read {A : Type} (f : gmap string string -> A) (r : ref) (h : heap) : A :=
  f (contents h r).

(** A method that assigns entries, called on [r]: the object [r] denotes is
    updated in place; assigning to an entry of a nil map panics. *)
Definition write (f : gmap string string -> gmap string string) (r : ref) (h : heap)
  : outcome heap :=
  match r with
  | nil => Panic (errorString "assignment to entry in nil map")
  | ptr l => Return (<[l := f (contents h r)]> h)
  end.

(** Several assigning methods called on [r], one after the other. *)
Fixpoint writes (fs : list (gmap string string -> gmap string string)) (r : ref) (h : heap)
  : outcome heap :=
  match fs with
  | [] => Return h
  | f :: fs' =>
      match write f r h with
      | Return h' => writes fs' r h'
      | Panic e => Panic e
      end
  end.

(** A run of assigning methods, each called on a reference of its own. *)
Fixpoint calls (ops : list (ref * (gmap string string -> gmap string string))) (h : heap)
  : outcome heap :=
  match ops with
  | [] => Return h
  | (r, f) :: ops' =>
      match write f r h with
      | Return h' => calls ops' h'
      | Panic e => Panic e
      end
  end.

#[global] Instance ref_eq_dec : EqDecision ref.
Proof. solve_decision. Defined.

(** What the calls of [ops] made on [r] do to contents [m], in order. *)
Definition effect_on (r : ref) (ops : list (ref * (gmap string string -> gmap string string)))
    (m : gmap string string) : gmap string string :=
  foldl (fun m op => if decide (op.1 = r) then op.2 m else m) m ops.

(** [Clone] called on [r]: [make] allocates a new object, which receives the
    entries read through [r]; the result is the reference to it. *)
Definition Clone (r : ref) (h : heap) : ref * heap :=
  let l := fresh (dom h) in
  (ptr l, <[l := Clone (contents h r)]> h).

End store.

(** ** Decimal numerals

    What a string of decimal digits denotes, independently of the parser:
    the parser and the formatter of [strconv] are compared with it. *)

Definition isDigit (c : ascii) : bool := (48 <=? byte_of c) && (byte_of c <=? 57).

Fixpoint all_digits (s : string) : bool :=
  match s with
  | EmptyString => true
  | String c s' => isDigit c && all_digits s'
  end.

(** The value of the digits of [s] read after the digits of value [n]. *)
Fixpoint decimal_from (n : Z) (s : string) : Z :=
  match s with
  | EmptyString => n
  | String c s' => decimal_from (n * 10 + (byte_of c - 48)) s'
  end.

Definition decimal (s : string) : Z := decimal_from 0 s.

(** ** The assigning methods as data

    One constructor for each method of [Meta] that assigns entries, with its
    arguments; [exec] is the method called on the contents [m], [run] a
    sequence of calls in program order. *)
Inductive call : Type :=
| CallSetVersion (v : string)
| CallSetFilename (fn : string)
| CallSetLabel (label : string)
| CallSetLastSeed (lseed : string)
| CallSetSeed (seed : string)
| CallSetSeedPassphrase (p : string)
| CallSetCoin (ct : CoinType)
| CallSetBip44Coin (ct : Z)
| CallSetEncrypted (cryptoType : crypto_CryptoType) (encryptedSecrets : string)
| CallSetDecrypted
| CallSetTimestamp (t : Z)
| CallSetXPub (xpub : string)
| CallEraseSeeds.

Definition exec (c : call) (m : Meta) : Meta :=
  match c with
  | CallSetVersion v => SetVersion v m
  | CallSetFilename fn => SetFilename fn m
  | CallSetLabel label => SetLabel label m
  | CallSetLastSeed lseed => SetLastSeed lseed m
  | CallSetSeed seed => SetSeed seed m
  | CallSetSeedPassphrase p => SetSeedPassphrase p m
  | CallSetCoin ct => SetCoin ct m
  | CallSetBip44Coin ct => SetBip44Coin ct m
  | CallSetEncrypted cryptoType encryptedSecrets => SetEncrypted cryptoType encryptedSecrets m
  | CallSetDecrypted => SetDecrypted m
  | CallSetTimestamp t => SetTimestamp t m
  | CallSetXPub xpub => SetXPub xpub m
  | CallEraseSeeds => EraseSeeds m
  end.

Definition run (cs : list call) (m : Meta) : Meta :=
  foldl (fun m c => exec c m) m cs.

(** The arguments of a call are values of their Go types: a [uint32] for
    [SetBip44Coin], an [int64] for [SetTimestamp]. *)
Definition well_typed (c : call) : Prop :=
  match c with
  | CallSetBip44Coin ct => 0 <= ct < 2 ^ 32
  | CallSetTimestamp t => - 2 ^ 63 <= t < 2 ^ 63
  | _ => True
  end.

(** The keys a call assigns. *)
Definition keys_of (c : call) : list string :=
  match c with
  | CallSetVersion _ => [MetaVersion]
  | CallSetFilename _ => [MetaFilename]
  | CallSetLabel _ => [MetaLabel]
  | CallSetLastSeed _ => [MetaLastSeed]
  | CallSetSeed _ => [MetaSeed]
  | CallSetSeedPassphrase _ => [MetaSeedPassphrase]
  | CallSetCoin _ => [MetaCoin]
  | CallSetBip44Coin _ => [MetaBip44Coin]
  | CallSetEncrypted _ _ => [MetaCryptoType; MetaSecrets; MetaEncrypted]
  | CallSetDecrypted => [MetaEncrypted; MetaSecrets; MetaCryptoType]
  | CallSetTimestamp _ => [MetaTimestamp]
  | CallSetXPub _ => [MetaXPub]
  | CallEraseSeeds => [MetaSeed; MetaLastSeed; MetaSeedPassphrase]
  end.

(** The last encryption transition of a sequence of calls, if it has one:
    [true] for [SetEncrypted], [false] for [SetDecrypted]. *)
Definition last_transition (cs : list call) : option bool :=
  foldl (fun r c => match c with
                    | CallSetEncrypted _ _ => Some true
                    | CallSetDecrypted => Some false
                    | _ => r
                    end) None cs.

(** The argument of the last [SetBip44Coin] of a sequence of calls. *)
Definition last_bip44 (cs : list call) : option Z :=
  foldl (fun r c => match c with CallSetBip44Coin ct => Some ct | _ => r end) None cs.

(** The argument of the last [SetTimestamp] of a sequence of calls. *)
Definition last_timestamp (cs : list call) : option Z :=
  foldl (fun r c => match c with CallSetTimestamp t => Some t | _ => r end) None cs.

(** The string-valued fields that have a getter and a setter. *)
Definition string_fields : list ((Meta -> string) * (string -> Meta -> Meta)) :=
  [ (Version, SetVersion); (Filename, SetFilename); (Label, SetLabel);
    (LastSeed, SetLastSeed); (Seed, SetSeed); (SeedPassphrase, SetSeedPassphrase);
    (Coin, SetCoin); (CryptoType, setCryptoType); (Secrets, setSecrets);
    (XPub, SetXPub) ].

(** What is left of a numeral after one optional sign in front. *)
Definition unsigned_part (s : string) : string :=
  match s with
  | String c rest => if bool_decide (c = "+"%char) || bool_decide (c = "-"%char) then rest else s
  | EmptyString => s
  end.

(** * Properties *)

(** ** [strconv]: parsing and formatting decimal numerals *)

Lemma byte_of_range (c : ascii) : 0 <= byte_of c < 256.
Proof.
  unfold byte_of. pose proof (N_ascii_bounded c) as H. lia.
Qed.

Lemma byte_of_digit (d : Z) : 0 <= d <= 9 → byte_of (strconv.digit d) = 48 + d.
Proof.
  intros Hd. unfold byte_of, strconv.digit, ascii_of.
  rewrite N_ascii_embedding; lia.
Qed.

Lemma isDigit_digit (d : Z) : 0 <= d <= 9 → isDigit (strconv.digit d) = true.
Proof.
  intros Hd. unfold isDigit. rewrite byte_of_digit by done. lia.
Qed.

Lemma decimal_from_mono (s : string) (n : Z) :
  all_digits s = true → 0 <= n → n <= decimal_from n s.
Proof.
  revert n. induction s as [| c s IH]; intros n Hs Hn; simpl in *; [lia |].
  apply andb_prop in Hs as [Hc Hs]. unfold isDigit in Hc.
  specialize (IH (n * 10 + (byte_of c - 48)) Hs). lia.
Qed.

Lemma ParseUint_loop_digits (s0 : string) (maxVal : Z) (cs : string) (n : Z) :
  maxVal <= strconv.maxUint64 → all_digits cs = true → 0 <= n →
  decimal_from n cs <= maxVal →
  strconv.ParseUint_loop s0 maxVal cs n = (decimal_from n cs, None).
Proof.
  intros Hmax. revert n. induction cs as [| c cs IH]; intros n Hcs Hn Hle; simpl in *; [done |].
  apply andb_prop in Hcs as [Hc Hcs]. unfold isDigit in Hc. rewrite Hc.
  pose proof (decimal_from_mono cs (n * 10 + (byte_of c - 48)) Hcs) as Hmono.
  assert (Hn10 : 0 <= n * 10 + (byte_of c - 48) <= maxVal) by lia.
  change (strconv.maxUint64 / 10 + 1) with 1844674407370955162.
  change strconv.maxUint64 with 18446744073709551615 in Hmax.
  unfold uint64. change (2 ^ 64) with 18446744073709551616.
  destruct (Z.leb_spec 1844674407370955162 n) as [Hcut | Hcut]; [lia |].
  rewrite (Z.mod_small (n * 10)) by lia.
  rewrite (Z.mod_small (n * 10 + _)) by lia.
  destruct (Z.ltb_spec (n * 10 + (byte_of c - 48)) (n * 10)) as [H1 | H1]; [lia |].
  destruct (Z.ltb_spec maxVal (n * 10 + (byte_of c - 48))) as [H2 | H2]; [lia |].
  simpl. apply IH; [done | lia | lia].
Qed.

(** Conversely, the loop returns no error only on digits that stay in range. *)
Lemma ParseUint_loop_ok_inv (s0 : string) (maxVal : Z) (cs : string) (n x : Z) :
  0 <= n →
  strconv.ParseUint_loop s0 maxVal cs n = (x, None) →
  all_digits cs = true /\ x = decimal_from n cs /\ (cs ≠ "" → x <= maxVal).
Proof.
  revert n. induction cs as [| c cs IH]; intros n Hn Hrun; simpl in *.
  { by inversion Hrun. }
  unfold isDigit.
  destruct ((48 <=? byte_of c) && (byte_of c <=? 57)) eqn:Hc; [| discriminate].
  change (strconv.maxUint64 / 10 + 1) with 1844674407370955162 in Hrun.
  unfold uint64 in Hrun. change (2 ^ 64) with 18446744073709551616 in Hrun.
  destruct (Z.leb_spec 1844674407370955162 n) as [Hcut | Hcut]; [discriminate |].
  rewrite (Z.mod_small (n * 10)) in Hrun by lia.
  pose proof (byte_of_range c) as Hb.
  destruct (Z.ltb_spec ((n * 10 + (byte_of c - 48)) mod 18446744073709551616) (n * 10))
    as [H1 | H1]; [discriminate |].
  destruct (Z.ltb_spec maxVal ((n * 10 + (byte_of c - 48)) mod 18446744073709551616))
    as [H2 | H2]; [discriminate |].
  simpl in Hrun.
  assert (Hsmall : (n * 10 + (byte_of c - 48)) mod 18446744073709551616
                   = n * 10 + (byte_of c - 48)).
  { clear H2 Hrun IH. Z.div_mod_to_equations. lia. }
  rewrite Hsmall in *.
  assert (Hpos : 0 <= n * 10 + (byte_of c - 48)) by lia.
  destruct (IH _ Hpos Hrun) as (Hd & Hx & Hmax).
  split; [done |]. split; [done |]. intros _.
  destruct cs as [| c' cs']; [simpl in Hx; lia |]. by apply Hmax.
Qed.

Lemma pow2_le_maxUint64 (bitSize : Z) :
  1 <= bitSize <= 64 → 0 <= 2 ^ bitSize - 1 <= strconv.maxUint64.
Proof.
  intros Hb. unfold strconv.maxUint64.
  pose proof (Z.pow_le_mono_r 2 bitSize 64 ltac:(lia) ltac:(lia)).
  pose proof (Z.pow_pos_nonneg 2 bitSize ltac:(lia) ltac:(lia)). lia.
Qed.

(** [ParseUint] accepts exactly the non-empty digit strings whose decimal
    value fits the bit size, and returns that value. *)
Lemma ParseUint_ok_iff (s : string) (bitSize x : Z) :
  1 <= bitSize <= 64 →
  strconv.ParseUint s bitSize = (x, None)
  ↔ s ≠ "" /\ all_digits s = true /\ decimal s <= 2 ^ bitSize - 1 /\ x = decimal s.
Proof.
  intros Hb. pose proof (pow2_le_maxUint64 bitSize Hb) as Hmax.
  unfold strconv.ParseUint, decimal. case_bool_decide as Hs.
  - split; [discriminate | tauto].
  - split.
    + intros Hrun. apply ParseUint_loop_ok_inv in Hrun as (Hd & Hx & Hle); [| lia].
      subst x. auto.
    + intros (_ & Hd & Hle & ->). apply ParseUint_loop_digits; [lia | done | lia | done].
Qed.

(** Any other string is an error. *)
Lemma ParseUint_error_iff (s : string) (bitSize : Z) :
  1 <= bitSize <= 64 →
  snd (strconv.ParseUint s bitSize) ≠ None
  ↔ s = "" \/ all_digits s = false \/ 2 ^ bitSize - 1 < decimal s.
Proof.
  intros Hb. destruct (strconv.ParseUint s bitSize) as [x [e |]] eqn:Hrun; simpl.
  - split; [| done]. intros _.
    destruct (decide (s = "")) as [| Hs]; [by left |].
    destruct (all_digits s) eqn:Hd; [| by right; left].
    destruct (Z.le_gt_cases (decimal s) (2 ^ bitSize - 1)) as [Hle | Hgt]; [| right; right; lia].
    assert (Hok : strconv.ParseUint s bitSize = (decimal s, None))
      by (apply ParseUint_ok_iff; auto).
    congruence.
  - apply ParseUint_ok_iff in Hrun as (Hs & Hd & Hle & _); [| done].
    split; [done |]. intros [? | [? | ?]]; [done | congruence | lia].
Qed.

(** *** Formatting *)

Lemma formatBits_nonempty (fuel : nat) (u : Z) (acc : string) :
  acc ≠ "" \/ fuel ≠ O → strconv.formatBits fuel u acc ≠ "".
Proof.
  revert u acc. induction fuel as [| fuel IH]; intros u acc H; simpl.
  - destruct H; done.
  - destruct (u <? 10); [done |]. apply IH. by left.
Qed.

Lemma formatBits_digits (fuel : nat) (u : Z) (acc : string) :
  0 <= u → all_digits acc = true → all_digits (strconv.formatBits fuel u acc) = true.
Proof.
  revert u acc. induction fuel as [| fuel IH]; intros u acc Hu Hacc; simpl; [done |].
  assert (Hd : all_digits (String (strconv.digit (u mod 10)) acc) = true).
  { simpl. rewrite isDigit_digit, Hacc; [done |]. Z.div_mod_to_equations. lia. }
  destruct (u <? 10); [done |]. apply IH; [| done]. Z.div_mod_to_equations. lia.
Qed.

Lemma formatBits_decimal (fuel : nat) (u : Z) (acc : string) :
  0 <= u < 10 ^ Z.of_nat fuel →
  decimal (strconv.formatBits fuel u acc) = decimal_from u acc.
Proof.
  revert u acc. induction fuel as [| fuel IH]; intros u acc Hu.
  - simpl in Hu. by assert (u = 0) as -> by lia.
  - rewrite Nat2Z.inj_succ, Z.pow_succ_r in Hu by lia.
    assert (Hmod : 0 <= u mod 10 <= 9) by (Z.div_mod_to_equations; lia).
    assert (Hstep : decimal_from (u / 10) (String (strconv.digit (u mod 10)) acc)
                    = decimal_from u acc).
    { simpl. rewrite byte_of_digit by done. f_equal. Z.div_mod_to_equations. lia. }
    simpl. destruct (Z.ltb_spec u 10) as [Hlt | Hge].
    + rewrite <- Hstep. rewrite Z.div_small by lia. done.
    + rewrite IH; [done |]. Z.div_mod_to_equations. lia.
Qed.

(** [ParseUint] reads back what [FormatUint] writes. *)
Lemma ParseUint_FormatUint (u bitSize : Z) :
  1 <= bitSize <= 64 → 0 <= u < 2 ^ bitSize →
  strconv.ParseUint (strconv.FormatUint u) bitSize = (u, None).
Proof.
  intros Hb Hu. pose proof (pow2_le_maxUint64 bitSize Hb) as Hmax.
  unfold strconv.maxUint64 in Hmax.
  assert (Hdec : decimal (strconv.FormatUint u) = u).
  { unfold strconv.FormatUint. rewrite formatBits_decimal; [done |].
    change (10 ^ Z.of_nat 20) with 100000000000000000000.
    change (2 ^ 64) with 18446744073709551616 in Hmax. lia. }
  apply ParseUint_ok_iff; [done |]. rewrite Hdec. repeat split; [| | lia].
  - apply formatBits_nonempty. by right.
  - apply formatBits_digits; [lia | done].
Qed.

Lemma formatBits_head (fuel : nat) (u : Z) (acc : string) :
  0 <= u → all_digits acc = true →
  ∃ c s, strconv.formatBits (S fuel) u acc = String c s /\ isDigit c = true.
Proof.
  intros Hu Hacc.
  pose proof (formatBits_digits (S fuel) u acc Hu Hacc) as Hd.
  pose proof (formatBits_nonempty (S fuel) u acc (or_intror (Nat.neq_succ_0 fuel))) as Hne.
  destruct (strconv.formatBits (S fuel) u acc) as [| c s]; [done |].
  simpl in Hd. apply andb_prop in Hd as [Hc _]. eauto.
Qed.

Lemma int64_small (z : Z) : - 2 ^ 63 <= z < 2 ^ 63 → int64 z = z.
Proof.
  intros Hz. unfold int64.
  change (2 ^ 63) with 9223372036854775808 in *.
  change (2 ^ 64) with 18446744073709551616. rewrite Z.mod_small; lia.
Qed.

(** [ParseInt] reads back what [FormatInt] writes, for every [int64]. *)
Lemma ParseInt_FormatInt (t : Z) :
  - 2 ^ 63 <= t < 2 ^ 63 → strconv.ParseInt (strconv.FormatInt t) 64 = (t, None).
Proof.
  intros Ht. unfold strconv.FormatInt.
  change (2 ^ 63) with 9223372036854775808 in Ht.
  destruct (Z.ltb_spec t 0) as [Hneg | Hpos].
  - assert (Hu : uint64 (- t) = - t).
    { unfold uint64. change (2 ^ 64) with 18446744073709551616. rewrite Z.mod_small; lia. }
    rewrite Hu. unfold strconv.ParseInt.
    rewrite (bool_decide_true ("-"%char = "-"%char)) by done. rewrite orb_true_r.
    rewrite ParseUint_FormatUint; [| lia | change (2 ^ 64) with 18446744073709551616; lia].
    change (2 ^ (64 - 1)) with 9223372036854775808. simpl negb. simpl andb.
    destruct (Z.ltb_spec 9223372036854775808 (- t)) as [? | Hle]; [lia |].
    f_equal. destruct (decide (t = - 9223372036854775808)) as [-> | Hne]; [done |].
    rewrite (int64_small (- t)) by (change (2 ^ 63) with 9223372036854775808; lia).
    rewrite Z.opp_involutive. apply int64_small. change (2 ^ 63) with 9223372036854775808; lia.
  - assert (Hu : uint64 t = t).
    { unfold uint64. change (2 ^ 64) with 18446744073709551616. rewrite Z.mod_small; lia. }
    rewrite Hu. unfold strconv.FormatUint.
    destruct (formatBits_head 19 t "" Hpos eq_refl) as (c & s & Hfmt & Hc).
    fold (strconv.FormatUint t) in Hfmt. fold (strconv.FormatUint t).
    unfold strconv.ParseInt. rewrite Hfmt.
    assert (Hplus : c ≠ "+"%char) by (intros ->; discriminate).
    assert (Hminus : c ≠ "-"%char) by (intros ->; discriminate).
    rewrite !bool_decide_false by done. simpl orb. rewrite <- Hfmt.
    rewrite ParseUint_FormatUint; [| lia | change (2 ^ 64) with 18446744073709551616; lia].
    change (2 ^ (64 - 1)) with 9223372036854775808. simpl negb. simpl andb.
    destruct (Z.leb_spec 9223372036854775808 t) as [? | Hlt]; [lia |].
    f_equal. apply int64_small. change (2 ^ 63) with 9223372036854775808; lia.
Qed.

Example ParseBool_examples :
  strconv.ParseBool "True" = (true, None) /\
  strconv.ParseBool "0" = (false, None) /\
  strconv.ParseBool "yes" = (false, Some (NumError "ParseBool" "yes" ErrSyntax)).
Proof. repeat split. Qed.

Example ParseUint_examples :
  strconv.ParseUint "4294967295" 32 = (4294967295, None) /\
  strconv.ParseUint "4294967296" 32 = (4294967295, Some (NumError "ParseUint" "4294967296" ErrRange)) /\
  strconv.ParseUint "007" 32 = (7, None) /\
  strconv.ParseUint "+7" 32 = (0, Some (NumError "ParseUint" "+7" ErrSyntax)) /\
  strconv.ParseUint "" 32 = (0, Some (NumError "ParseUint" "" ErrSyntax)).
Proof. repeat split. Qed.

Example ParseInt_examples :
  strconv.ParseInt "-9223372036854775808" 64 = (-9223372036854775808, None) /\
  strconv.ParseInt "+15" 64 = (15, None) /\
  strconv.ParseInt "-" 64 = (0, Some (NumError "ParseInt" "-" ErrSyntax)) /\
  strconv.ParseInt "12a" 64 = (0, Some (NumError "ParseInt" "12a" ErrSyntax)) /\
  strconv.ParseInt "9223372036854775808" 64
    = (9223372036854775807, Some (NumError "ParseInt" "9223372036854775808" ErrRange)).
Proof. repeat split. Qed.

Example FormatInt_examples :
  strconv.FormatInt 0 = "0" /\
  strconv.FormatInt 1577836800 = "1577836800" /\
  strconv.FormatInt (-9223372036854775808) = "-9223372036854775808" /\
  strconv.FormatUint 18446744073709551615 = "18446744073709551615".
Proof. repeat split. Qed.

(** ** Reading after an assignment *)

Lemma index_insert_eq (m : Meta) (k v : string) : index (<[k := v]> m) k = v.
Proof. unfold index. by rewrite lookup_insert_eq. Qed.

Lemma index_insert_ne (m : Meta) (k k' v : string) :
  k ≠ k' → index (<[k := v]> m) k' = index m k'.
Proof. intros Hne. unfold index. by rewrite lookup_insert_ne. Qed.

Lemma index_lookup (m : Meta) (k v : string) : m !! k = Some v → index m k = v.
Proof. intros H. unfold index. by rewrite H. Qed.

Lemma index_absent (m : Meta) (k : string) : m !! k = None → index m k = "".
Proof. intros H. unfold index. by rewrite H. Qed.

Create HintDb meta_unfold.
#[local] Hint Unfold
  Find Type_ Version SetVersion Filename SetFilename Label SetLabel
  LastSeed SetLastSeed Seed SetSeed SeedPassphrase SetSeedPassphrase EraseSeeds
  Coin SetCoin SetBip44Coin setIsEncrypted setCryptoType CryptoType Secrets
  setSecrets SetEncrypted SetDecrypted SetTimestamp SetXPub XPub
  MetaVersion MetaFilename MetaLabel MetaTimestamp MetaType MetaCoin MetaEncrypted
  MetaCryptoType MetaSeed MetaLastSeed MetaSecrets MetaBip44Coin MetaAccountsHash
  MetaSeedPassphrase MetaXPub : meta_unfold.

(** Unfold the accessors and settle the lookups through the assignments. *)
Ltac meta_lookup :=
  autounfold with meta_unfold; unfold index;
  repeat (rewrite lookup_insert_eq || (rewrite lookup_insert_ne; [| done]));
  try done.

(** ** Encryption fields *)

(** C1. Encryption round-trip: after [SetEncrypted A B] the record reports
    [IsEncrypted] true, [CryptoType] [A] and [Secrets] [B]; after a subsequent
    [SetDecrypted] it reports [IsEncrypted] false and empty [CryptoType] and
    [Secrets]. *)
Theorem SetEncrypted_SetDecrypted_round_trip (A : crypto_CryptoType) (B : string) (m : Meta) :
  let m1 := SetEncrypted A B m in
  let m2 := SetDecrypted m1 in
  IsEncrypted m1 = Return true /\ CryptoType m1 = A /\ Secrets m1 = B /\
  IsEncrypted m2 = Return false /\ CryptoType m2 = "" /\ Secrets m2 = "".
Proof.
  cbv zeta. unfold IsEncrypted. repeat split; meta_lookup.
Qed.

(** C7. Default encryption flag: a record without the [encrypted] key, the
    empty record in particular, reports [IsEncrypted] false and no panic. *)
Theorem IsEncrypted_absent_false (m : Meta) :
  m !! MetaEncrypted = None →
  IsEncrypted m = Return false /\ IsEncrypted (∅ : Meta) = Return false.
Proof.
  intros Habs. unfold IsEncrypted. rewrite Habs. split; [done |].
  by rewrite lookup_empty.
Qed.

Lemma IsEncrypted_absent_false_witness :
  let m : Meta := <["label" := "savings"]> (<["coin" := "skycoin"]> ∅) in
  m !! MetaEncrypted = None /\ IsEncrypted m = Return false.
Proof.
  cbv zeta. split; [meta_lookup |].
  apply (IsEncrypted_absent_false (<["label" := "savings"]> (<["coin" := "skycoin"]> ∅))).
  meta_lookup.
Defined.

(** ** Seeds *)

(** C5. [EraseSeeds] sets [seed], [lastSeed] and [seedPassphrase] to the empty
    string and leaves every other key as it was, [secrets] and [cryptoType] in
    particular; erasing twice is erasing once, and the three getters return
    the empty string afterwards. *)
Theorem EraseSeeds_effect_idempotent (m : Meta) :
  EraseSeeds m !! MetaSeed = Some "" /\
  EraseSeeds m !! MetaLastSeed = Some "" /\
  EraseSeeds m !! MetaSeedPassphrase = Some "" /\
  (∀ k, k ∉ [MetaSeed; MetaLastSeed; MetaSeedPassphrase] → EraseSeeds m !! k = m !! k) /\
  Secrets (EraseSeeds m) = Secrets m /\
  CryptoType (EraseSeeds m) = CryptoType m /\
  EraseSeeds (EraseSeeds m) = EraseSeeds m /\
  Seed (EraseSeeds m) = "" /\ LastSeed (EraseSeeds m) = "" /\ SeedPassphrase (EraseSeeds m) = "".
Proof.
  repeat split; try (by meta_lookup).
  - intros k Hk. autounfold with meta_unfold in *.
    rewrite !lookup_insert_ne; [done | set_solver ..].
  - apply map_eq. intros k. autounfold with meta_unfold.
    destruct (decide (k = "seedPassphrase")) as [-> | H1]; [by rewrite !lookup_insert_eq |].
    destruct (decide (k = "lastSeed")) as [-> | H2]; [by meta_lookup |].
    destruct (decide (k = "seed")) as [-> | H3]; [by meta_lookup |].
    by rewrite !lookup_insert_ne.
Qed.

(** The scenario of the specification: the coin type survives the erasure. *)
Example EraseSeeds_scenario :
  let m := EraseSeeds (SetSeed "abandon abandon ability" (SetCoin CoinTypeBitcoin ∅)) in
  Seed m = "" /\ Coin m = CoinTypeBitcoin.
Proof. cbv zeta. split; meta_lookup. Qed.

(** ** Coin type *)

(** C10. [SetCoin] stores its argument as it is and [Coin] returns the
    stored string as it is, whatever the string: neither validates nor
    normalizes. *)
Theorem SetCoin_Coin_verbatim (s : string) (m : Meta) :
  Coin (SetCoin (s : CoinType) m) = s /\
  SetCoin s m !! MetaCoin = Some s /\
  (∀ k, k ≠ MetaCoin → SetCoin s m !! k = m !! k) /\
  (∀ v, m !! MetaCoin = Some v → Coin m = v).
Proof.
  repeat split; try (by meta_lookup).
  - intros k Hk. autounfold with meta_unfold in *. by rewrite lookup_insert_ne.
  - intros v Hv. unfold Coin. by apply index_lookup.
Qed.

(** ** BIP-44 coin *)

(** C6. Bip44 presence: a record without the [bip44Coin] key reports absence;
    a record after [SetBip44Coin 0] reports presence with value 0; the two
    results differ. *)
Theorem Bip44Coin_presence_flag (m m' : Meta) :
  m !! MetaBip44Coin = None →
  Bip44Coin m = Return (0, false) /\
  Bip44Coin (SetBip44Coin 0 m') = Return (0, true) /\
  Bip44Coin m ≠ Bip44Coin (SetBip44Coin 0 m').
Proof.
  intros Habs.
  assert (H1 : Bip44Coin m = Return (0, false)) by (unfold Bip44Coin; by rewrite Habs).
  assert (H2 : Bip44Coin (SetBip44Coin 0 m') = Return (0, true)).
  { unfold Bip44Coin, SetBip44Coin. by rewrite lookup_insert_eq. }
  rewrite H1, H2. repeat split. discriminate.
Qed.

Lemma Bip44Coin_presence_flag_witness :
  (∅ : Meta) !! MetaBip44Coin = None /\
  Bip44Coin (∅ : Meta) = Return (0, false) /\
  Bip44Coin (SetBip44Coin 0 ∅) = Return (0, true).
Proof.
  split; [apply lookup_empty |].
  destruct (Bip44Coin_presence_flag ∅ ∅ (lookup_empty _)) as (H1 & H2 & _).
  split; [exact H1 | exact H2].
Defined.

(** ** Malformed stored values *)

(** [ParseBool] accepts exactly twelve spellings. *)
Lemma ParseBool_ok_iff (s : string) :
  snd (strconv.ParseBool s) = None
  ↔ s ∈ ["1"; "t"; "T"; "true"; "TRUE"; "True"; "0"; "f"; "F"; "false"; "FALSE"; "False"].
Proof.
  change ["1"; "t"; "T"; "true"; "TRUE"; "True"; "0"; "f"; "F"; "false"; "FALSE"; "False"]
    with (@app string ["1"; "t"; "T"; "true"; "TRUE"; "True"]
                      ["0"; "f"; "F"; "false"; "FALSE"; "False"]).
  rewrite elem_of_app. unfold strconv.ParseBool.
  repeat case_bool_decide; simpl; split; (done || tauto).
Qed.

(** A syntax error of [ParseInt] comes with the value 0. *)
Lemma ParseInt_syntax_zero (s : string) (bitSize x : Z) (fn num : string) :
  strconv.ParseInt s bitSize = (x, Some (NumError fn num ErrSyntax)) → x = 0.
Proof.
  unfold strconv.ParseInt. destruct s as [| c rest]; [by inversion 1 |].
  cbv zeta.
  destruct (strconv.ParseUint _ bitSize) as [un [[? | ? ? []] |]];
    repeat case_match; by inversion 1.
Qed.

(** C2. Fail-fast on malformed typed fields: when the stored [encrypted]
    value is a string that [ParseBool] rejects, [IsEncrypted] panics with the
    parser's error; when the stored [bip44Coin] value is a string that
    [ParseUint] rejects as a 32-bit unsigned integer, [Bip44Coin] panics with
    the parser's error.  Neither returns a default or an absence result.
    ([ParseBool_ok_iff] and [ParseUint_error_iff] say which strings these
    are.) *)
Theorem malformed_field_panics (m : Meta) (s : string) :
  (m !! MetaEncrypted = Some s → snd (strconv.ParseBool s) ≠ None →
   ∃ e, snd (strconv.ParseBool s) = Some e /\ IsEncrypted m = Panic e) /\
  (m !! MetaBip44Coin = Some s → snd (strconv.ParseUint s 32) ≠ None →
   ∃ e, snd (strconv.ParseUint s 32) = Some e /\ Bip44Coin m = Panic e).
Proof.
  split; intros Hm Herr.
  - unfold IsEncrypted. rewrite Hm.
    destruct (strconv.ParseBool s) as [b [e |]]; [eauto | done].
  - unfold Bip44Coin. rewrite Hm.
    destruct (strconv.ParseUint s 32) as [x [e |]]; [eauto | done].
Qed.

Lemma malformed_field_panics_witness :
  let m : Meta := <["encrypted" := "yes"]> ∅ in
  ∃ e, snd (strconv.ParseBool "yes") = Some e /\ IsEncrypted m = Panic e.
Proof.
  cbv zeta.
  apply (proj1 (malformed_field_panics (<["encrypted" := "yes"]> ∅) "yes")).
  - meta_lookup.
  - discriminate.
Defined.

Example malformed_field_examples :
  IsEncrypted (<["encrypted" := "yes"]> ∅) = Panic (NumError "ParseBool" "yes" ErrSyntax) /\
  IsEncrypted (<["encrypted" := ""]> ∅) = Panic (NumError "ParseBool" "" ErrSyntax) /\
  Bip44Coin (<["bip44Coin" := "-1"]> ∅) = Panic (NumError "ParseUint" "-1" ErrSyntax) /\
  Bip44Coin (<["bip44Coin" := ""]> ∅) = Panic (NumError "ParseUint" "" ErrSyntax) /\
  Bip44Coin (<["bip44Coin" := "4294967296"]> ∅)
    = Panic (NumError "ParseUint" "4294967296" ErrRange).
Proof. repeat split. Qed.

(** ** Timestamp *)

(** The key of the timestamp is ["tm"]: after [SetTimestamp] nothing is
    found under ["timestamp"] in a record that had nothing there. *)
Lemma SetTimestamp_key_counterexample :
  Find "timestamp" (SetTimestamp 1577836800 ∅) = "" /\
  strconv.FormatInt 1577836800 = "1577836800" /\
  Find "tm" (SetTimestamp 1577836800 ∅) = "1577836800".
Proof. repeat split. Qed.

(** C8, amended. The creation timestamp is stored under the key ["tm"]: for
    every [int64] [t], after [SetTimestamp t] the lookup [Find "tm"] returns
    the decimal string of [t] (which [ParseInt] reads back as [t]), and what
    [Find "timestamp"] returns is what it returned before. *)
Theorem SetTimestamp_stored_under_tm (t : Z) (m : Meta) :
  - 2 ^ 63 <= t < 2 ^ 63 →
  Find "tm" (SetTimestamp t m) = strconv.FormatInt t /\
  strconv.ParseInt (Find "tm" (SetTimestamp t m)) 64 = (t, None) /\
  Find "timestamp" (SetTimestamp t m) = Find "timestamp" m.
Proof.
  intros Ht.
  assert (Hfind : Find "tm" (SetTimestamp t m) = strconv.FormatInt t) by meta_lookup.
  rewrite Hfind. repeat split; [by apply ParseInt_FormatInt | meta_lookup].
Qed.

Lemma SetTimestamp_stored_under_tm_witness :
  - 2 ^ 63 <= 1577836800 < 2 ^ 63 /\
  Find "tm" (SetTimestamp 1577836800 (<["label" := "savings"]> ∅)) = "1577836800".
Proof.
  assert (Hr : - 2 ^ 63 <= 1577836800 < 2 ^ 63) by (split; by vm_compute).
  split; [exact Hr |].
  exact (proj1 (SetTimestamp_stored_under_tm 1577836800 (<["label" := "savings"]> ∅) Hr)).
Defined.

(** [Timestamp] reads back what [SetTimestamp] wrote. *)
Lemma Timestamp_SetTimestamp (t : Z) (m : Meta) :
  - 2 ^ 63 <= t < 2 ^ 63 → Timestamp (SetTimestamp t m) = t.
Proof.
  intros Ht. unfold Timestamp, SetTimestamp. rewrite index_insert_eq.
  by rewrite ParseInt_FormatInt.
Qed.

(** [Bip44Coin] reads back what [SetBip44Coin] wrote. *)
Lemma Bip44Coin_SetBip44Coin (ct : Z) (m : Meta) :
  0 <= ct < 2 ^ 32 → Bip44Coin (SetBip44Coin ct m) = Return (ct, true).
Proof.
  intros Hct. unfold Bip44Coin, SetBip44Coin. rewrite lookup_insert_eq.
  change (2 ^ 32) with 4294967296 in Hct.
  assert (Hu : uint64 ct = ct).
  { unfold uint64. change (2 ^ 64) with 18446744073709551616. rewrite Z.mod_small; lia. }
  rewrite Hu, ParseUint_FormatUint; [| lia | change (2 ^ 32) with 4294967296; lia].
  unfold bip44_CoinType, uint32. change (2 ^ 32) with 4294967296.
  by rewrite Z.mod_small by lia.
Qed.

(** The lenient part of [Timestamp]: a missing value and a value that is a
    syntax error both read as 0. *)
Lemma Timestamp_absent_or_syntax_zero (m : Meta) :
  (m !! MetaTimestamp = None \/
   ∃ s x fn num, m !! MetaTimestamp = Some s /\
                 strconv.ParseInt s 64 = (x, Some (NumError fn num ErrSyntax))) →
  Timestamp m = 0.
Proof.
  intros [Habs | (s & x & fn & num & Hs & Hrun)]; unfold Timestamp.
  - by rewrite (index_absent _ _ Habs).
  - rewrite (index_lookup _ _ _ Hs), Hrun. by apply ParseInt_syntax_zero in Hrun.
Qed.

(** C9. Timestamp leniency fails on a stored value out of the [int64]
    range: [ParseInt] rejects it with a range error and returns the nearest
    bound, which [Timestamp] returns instead of 0. *)
Theorem Timestamp_out_of_range_clamped :
  let m : Meta := <["tm" := "9223372036854775808"]> ∅ in
  strconv.ParseInt "9223372036854775808" 64
    = (9223372036854775807, Some (NumError "ParseInt" "9223372036854775808" ErrRange)) /\
  Timestamp m = 9223372036854775807 /\
  Timestamp (<["tm" := "-9223372036854775809"]> ∅) = - 9223372036854775808.
Proof. repeat split. Qed.

(** ** Coin type resolution *)

(** On an ASCII string [ToLower] does not consult the case table. *)
Lemma ToLower_ASCII (caseLower : Z → Z) (s : string) :
  gostrings.isASCII s = true → gostrings.ToLower caseLower s = gostrings.lowerASCII s.
Proof.
  intros Hs. unfold gostrings.ToLower. rewrite Hs.
  destruct (gostrings.hasUpper s) eqn:Hup; [done |].
  clear Hs. induction s as [| c s IH]; [done |].
  simpl in *. apply orb_false_elim in Hup as [Hc Hup].
  by rewrite Hc, <- IH.
Qed.

(** C3. Coin type resolution: an input whose lower-casing is ["sky"] or
    ["skycoin"] resolves to [CoinTypeSkycoin] with no error, one whose
    lower-casing is ["btc"] or ["bitcoin"] to [CoinTypeBitcoin] with no
    error, and any other input (["eth"] for one) fails with the invalid coin
    type error. *)
Theorem ResolveCoinType_cases (caseLower : Z → Z) (s : string) :
  let l := gostrings.ToLower caseLower s in
  (l = "sky" \/ l = "skycoin" → ResolveCoinType caseLower s = (CoinTypeSkycoin, None)) /\
  (l = "btc" \/ l = "bitcoin" → ResolveCoinType caseLower s = (CoinTypeBitcoin, None)) /\
  (l ∉ ["sky"; "skycoin"; "btc"; "bitcoin"] →
   ResolveCoinType caseLower s = ("", Some (errorString "invalid coin type"))) /\
  ResolveCoinType caseLower "eth" = ("", Some (errorString "invalid coin type")).
Proof.
  cbv zeta. unfold ResolveCoinType. repeat split.
  - intros [-> | ->]; done.
  - intros [-> | ->]; done.
  - intros Hl. rewrite !not_elem_of_cons in Hl. destruct Hl as (H1 & H2 & H3 & H4 & _).
    by rewrite !bool_decide_false.
Qed.

Lemma ResolveCoinType_cases_witness :
  gostrings.ToLower gostrings.caseLower_fragment "SkyCoin" = "skycoin" /\
  ResolveCoinType gostrings.caseLower_fragment "SkyCoin" = (CoinTypeSkycoin, None).
Proof.
  split; [reflexivity |].
  apply (proj1 (ResolveCoinType_cases gostrings.caseLower_fragment "SkyCoin")).
  right. reflexivity.
Defined.

(** The inputs the specification lists, whatever the case table. *)
Example ResolveCoinType_examples (caseLower : Z → Z) :
  ResolveCoinType caseLower "SKY" = (CoinTypeSkycoin, None) /\
  ResolveCoinType caseLower "skycoin" = (CoinTypeSkycoin, None) /\
  ResolveCoinType caseLower "Sky" = (CoinTypeSkycoin, None) /\
  ResolveCoinType caseLower "BTC" = (CoinTypeBitcoin, None) /\
  ResolveCoinType caseLower "BitCoin" = (CoinTypeBitcoin, None) /\
  ResolveCoinType caseLower "eth" = ("", Some (errorString "invalid coin type")) /\
  ResolveCoinType caseLower "" = ("", Some (errorString "invalid coin type")) /\
  ResolveCoinType caseLower " sky" = ("", Some (errorString "invalid coin type")).
Proof. repeat split. Qed.

(** Lower-casing is Unicode's: with the Kelvin sign (U+212A, three bytes in
    UTF-8) for the letter K, the input still lower-cases to ["sky"]. *)
Example ResolveCoinType_kelvin :
  let s := bytes [0x53; 0xE2; 0x84; 0xAA; 0x59] in
  gostrings.ToLower gostrings.caseLower_fragment s = "sky" /\
  ResolveCoinType gostrings.caseLower_fragment s = (CoinTypeSkycoin, None).
Proof. split; reflexivity. Qed.

(** [SetCoin] takes what the resolver rejects. *)
Example SetCoin_unresolved (caseLower : Z → Z) :
  Coin (SetCoin "eth" ∅) = "eth" /\
  ResolveCoinType caseLower "eth" = ("", Some (errorString "invalid coin type")).
Proof. split; reflexivity. Qed.

(** ** Clone *)

(** The copy loop of [Clone] rebuilds the map it reads. *)
Lemma Clone_eq (m : Meta) : Clone m = m.
Proof.
  unfold Clone. rewrite map_fold_foldr.
  rewrite <- (list_to_map_to_list m) at 2.
  generalize (map_to_list m) as l. induction l as [| [k v] l IH]; [done |].
  simpl. by rewrite IH.
Qed.

Lemma contents_insert_eq (h : store.heap) (l : store.loc) (m : Meta) :
  store.contents (<[l := m]> h) (store.ptr l) = m.
Proof. unfold store.contents. by rewrite lookup_insert_eq. Qed.

Lemma contents_insert_ne (h : store.heap) (l : store.loc) (m : Meta) (r : store.ref) :
  r ≠ store.ptr l → store.contents (<[l := m]> h) r = store.contents h r.
Proof.
  intros Hne. destruct r as [| l']; [done |]. unfold store.contents.
  rewrite lookup_insert_ne; [done | congruence].
Qed.

(** An assignment through [r] is seen through [r] and through no reference
    to another object. *)
Lemma write_contents (f : Meta → Meta) (r r' : store.ref) (h h' : store.heap) :
  store.write f r h = Return h' →
  store.contents h' r = f (store.contents h r) /\
  (r' ≠ r → store.contents h' r' = store.contents h r').
Proof.
  destruct r as [| l]; [discriminate |]. intros [= <-]. split.
  - apply contents_insert_eq.
  - intros Hne. by apply contents_insert_ne.
Qed.

(** The effect of a sequence of assigning methods on the contents. *)
Lemma writes_contents (fs : list (Meta → Meta)) (r r' : store.ref) (h h' : store.heap) :
  store.writes fs r h = Return h' →
  store.contents h' r = foldl (fun m f => f m) (store.contents h r) fs /\
  (r' ≠ r → store.contents h' r' = store.contents h r').
Proof.
  revert h. induction fs as [| f fs IH]; intros h Hrun; simpl in *.
  - by injection Hrun as <-.
  - destruct (store.write f r h) as [h1 |] eqn:Hw; [| discriminate].
    destruct (write_contents f r r' h h1 Hw) as [Hr Hr'].
    destruct (IH h1 Hrun) as [IHr IHr']. split.
    + by rewrite IHr, Hr.
    + intros Hne. by rewrite IHr', Hr'.
Qed.

(** The reference [Clone] returns denotes a new object. *)
Lemma Clone_fresh (h : store.heap) (r : store.ref) :
  store.valid h r → (store.Clone r h).1 ≠ r.
Proof.
  intros Hv. unfold store.Clone. cbn [fst]. destruct r as [| l]; [done |].
  intros [= Heq]. simpl in Hv. apply elem_of_dom in Hv.
  rewrite <- Heq in Hv. by apply is_fresh in Hv.
Qed.

(** C4. Clone independence: the clone of a record maps the same keys to the
    same values as the record at the moment of cloning; assignments made
    afterwards through the record leave what the clone reads unchanged, and
    assignments made through the clone leave what the record reads
    unchanged. *)
Theorem Clone_independence (h : store.heap) (R : store.ref) :
  store.valid h R →
  let C := (store.Clone R h).1 in
  let h1 := (store.Clone R h).2 in
  (∀ k, store.contents h1 C !! k = store.contents h R !! k) /\
  store.contents h1 R = store.contents h R /\
  (∀ fs h2, store.writes fs R h1 = Return h2 →
            store.contents h2 C = store.contents h1 C) /\
  (∀ fs h2, store.writes fs C h1 = Return h2 →
            store.contents h2 C = foldl (fun m f => f m) (store.contents h1 C) fs /\
            store.contents h2 R = store.contents h1 R).
Proof.
  intros Hv. pose proof (Clone_fresh h R Hv) as Hfresh. cbv zeta.
  unfold store.Clone in *. cbn [fst snd] in *.
  set (l := fresh (dom h)) in *. split; [| split; [| split]].
  - intros k. by rewrite contents_insert_eq, Clone_eq.
  - by apply contents_insert_ne.
  - intros fs h2 Hrun. by apply (writes_contents fs R (store.ptr l) _ h2 Hrun).
  - intros fs h2 Hrun.
    destruct (writes_contents fs (store.ptr l) R _ h2 Hrun) as [HC HR].
    split; [done |]. apply HR. congruence.
Qed.

Lemma Clone_independence_witness :
  let h : store.heap := <[1%positive := SetSeed "abandon" (SetLabel "savings" ∅)]> ∅ in
  let R := store.ptr 1%positive in
  store.valid h R /\
  (∀ fs h2, store.writes fs R (store.Clone R h).2 = Return h2 →
            store.contents h2 (store.Clone R h).1
            = store.contents (store.Clone R h).2 (store.Clone R h).1).
Proof.
  cbv zeta.
  assert (Hv : store.valid (<[1%positive := SetSeed "abandon" (SetLabel "savings" ∅)]> ∅)
                           (store.ptr 1%positive)) by (by eexists).
  split; [exact Hv |].
  exact (proj1 (proj2 (proj2 (Clone_independence _ _ Hv)))).
Defined.

(** In any run of assignments a reference reads the effect of the calls made
    on it, and of no other. *)
Lemma calls_contents (ops : list (store.ref * (Meta → Meta))) (r : store.ref)
    (h h' : store.heap) :
  store.calls ops h = Return h' →
  store.contents h' r = store.effect_on r ops (store.contents h r).
Proof.
  unfold store.effect_on. revert h.
  induction ops as [| [q f] ops IH]; intros h Hrun; simpl in *.
  - by injection Hrun as <-.
  - destruct (store.write f q h) as [h1 |] eqn:Hw; [| discriminate].
    rewrite (IH h1 Hrun). f_equal.
    destruct (write_contents f q r h h1 Hw) as [Hq Hr].
    case_decide as Hqr; [by subst q | apply Hr; congruence].
Qed.

(** X13. After [Clone], whatever assignments follow and in whatever order,
    the record and its clone each read the common contents changed by their
    own calls only. *)
Lemma Clone_independence_interleaved (h : store.heap) (R : store.ref)
    (ops : list (store.ref * (Meta → Meta))) (h2 : store.heap) :
  store.valid h R →
  store.calls ops (store.Clone R h).2 = Return h2 →
  let C := (store.Clone R h).1 in
  C ≠ R /\
  store.contents h2 R = store.effect_on R ops (store.contents h R) /\
  store.contents h2 C = store.effect_on C ops (store.contents h R).
Proof.
  intros Hv Hrun. pose proof (Clone_fresh h R Hv) as Hfresh. cbv zeta.
  split; [done |].
  rewrite (calls_contents ops R _ h2 Hrun), (calls_contents ops _ _ h2 Hrun).
  unfold store.Clone in *. cbn [fst snd] in *.
  rewrite contents_insert_eq, Clone_eq, contents_insert_ne; [done | congruence].
Qed.

(** A run on the heap: the record is cloned, its seeds are erased, the clone
    is relabelled; each side keeps what the other changed. *)
Example Clone_run :
  let h : store.heap := <[1%positive := SetSeed "abandon" (SetLabel "savings" ∅)]> ∅ in
  let R := store.ptr 1%positive in
  let '(C, h1) := store.Clone R h in
  ∃ h2 h3,
    store.write EraseSeeds R h1 = Return h2 /\
    store.write (SetLabel "copy") C h2 = Return h3 /\
    store.read Seed R h3 = "" /\ store.read Label R h3 = "savings" /\
    store.read Seed C h3 = "abandon" /\ store.read Label C h3 = "copy".
Proof.
  cbv zeta. simpl. eexists. eexists. split; [reflexivity |]. split; [reflexivity |].
  repeat split; vm_compute; reflexivity.
Qed.

(** An assignment through a second name of the same object is seen through
    the first, and an assigning method panics on the nil map. *)
Example alias_and_nil :
  let h : store.heap := <[1%positive := (∅ : Meta)]> ∅ in
  let R := store.ptr 1%positive in
  let alias := R in
  (∃ h', store.write (SetLabel "shared") alias h = Return h' /\
         store.read Label R h' = "shared") /\
  store.write (SetLabel "x") store.nil h
    = Panic (errorString "assignment to entry in nil map") /\
  store.read IsEncrypted store.nil h = Return false.
Proof.
  cbv zeta. split; [| split; reflexivity].
  eexists. split; [reflexivity |]. vm_compute. reflexivity.
Qed.

(** * Further properties of the package *)

(** ** More on [strconv] *)

(** On digits the loop of [ParseUint] stops with a range error as soon as the
    value read leaves the range. *)
Lemma ParseUint_loop_overflow (s0 : string) (maxVal : Z) (cs : string) (n : Z) :
  maxVal <= strconv.maxUint64 → all_digits cs = true → 0 <= n <= maxVal →
  maxVal < decimal_from n cs →
  strconv.ParseUint_loop s0 maxVal cs n = (maxVal, Some (strconv.rangeError "ParseUint" s0)).
Proof.
  intros Hmax. revert n. induction cs as [| c cs IH]; intros n Hcs Hn Hgt; simpl in *; [lia |].
  apply andb_prop in Hcs as [Hc Hcs]. unfold isDigit in Hc. rewrite Hc.
  change (strconv.maxUint64 / 10 + 1) with 1844674407370955162.
  change strconv.maxUint64 with 18446744073709551615 in Hmax.
  unfold uint64. change (2 ^ 64) with 18446744073709551616.
  destruct (Z.leb_spec 1844674407370955162 n) as [Hcut | Hcut]; [done |].
  rewrite (Z.mod_small (n * 10)) by lia.
  destruct (Z.ltb_spec ((n * 10 + (byte_of c - 48)) mod 18446744073709551616) (n * 10))
    as [H1 | H1]; [done |].
  destruct (Z.ltb_spec maxVal ((n * 10 + (byte_of c - 48)) mod 18446744073709551616))
    as [H2 | H2]; [done |].
  assert (Hsmall : (n * 10 + (byte_of c - 48)) mod 18446744073709551616
                   = n * 10 + (byte_of c - 48)).
  { clear H2 IH Hgt. Z.div_mod_to_equations. lia. }
  rewrite Hsmall in *. simpl. apply IH; [done | lia | done].
Qed.

Lemma ParseUint_digits_overflow (s : string) (bitSize : Z) :
  1 <= bitSize <= 64 → all_digits s = true → 2 ^ bitSize - 1 < decimal s →
  strconv.ParseUint s bitSize = (2 ^ bitSize - 1, Some (strconv.rangeError "ParseUint" s)).
Proof.
  intros Hb Hd Hgt. pose proof (pow2_le_maxUint64 bitSize Hb) as Hmax.
  unfold strconv.ParseUint. case_bool_decide as Hs.
  - subst s. unfold decimal in Hgt. simpl in Hgt. lia.
  - apply ParseUint_loop_overflow; [lia | done | lia | done].
Qed.

(** A string that is empty or starts with a byte that is no digit is a
    syntax error for [ParseUint]. *)
Lemma ParseUint_no_digit (s : string) (bitSize : Z) :
  match s with EmptyString => True | String c _ => isDigit c = false end →
  strconv.ParseUint s bitSize = (0, Some (strconv.syntaxError "ParseUint" s)).
Proof.
  intros Hs. unfold strconv.ParseUint. destruct s as [| c s']; [done |].
  rewrite bool_decide_false by done. simpl. unfold isDigit in Hs. by rewrite Hs.
Qed.

Lemma all_digits_head (s : string) :
  all_digits s = true → s ≠ "" → ∃ c s', s = String c s' /\ isDigit c = true.
Proof.
  intros Hd Hs. destruct s as [| c s']; [done |].
  simpl in Hd. apply andb_prop in Hd as [Hc _]. eauto.
Qed.

Lemma isDigit_not_sign (c : ascii) :
  isDigit c = true → c ≠ "+"%char /\ c ≠ "-"%char.
Proof. intros Hc. split; intros ->; discriminate. Qed.

(** [ParseInt] on an unsigned numeral: its value, or the upper bound. *)
Lemma ParseInt_digits (s : string) :
  all_digits s = true → s ≠ "" →
  fst (strconv.ParseInt s 64) = Z.min (decimal s) (2 ^ 63 - 1).
Proof.
  intros Hd Hs. destruct (all_digits_head s Hd Hs) as (c & s' & -> & Hc).
  destruct (isDigit_not_sign c Hc) as [Hplus Hminus].
  unfold strconv.ParseInt. rewrite !bool_decide_false by done. simpl orb.
  set (s := String c s') in *.
  change (2 ^ (64 - 1)) with 9223372036854775808. simpl negb. simpl andb.
  change (2 ^ 63) with 9223372036854775808.
  destruct (Z.le_gt_cases (decimal s) (2 ^ 64 - 1)) as [Hle | Hgt].
  - assert (Hrun : strconv.ParseUint s 64 = (decimal s, None))
      by (apply ParseUint_ok_iff; [lia | done]).
    rewrite Hrun.
    assert (0 <= decimal s) by (by apply (decimal_from_mono s 0)).
    destruct (Z.leb_spec 9223372036854775808 (decimal s)).
    + simpl. rewrite Z.min_r by lia. done.
    + simpl. rewrite Z.min_l by lia. apply int64_small.
      change (2 ^ 63) with 9223372036854775808. lia.
  - rewrite ParseUint_digits_overflow; [| lia | done | lia].
    change (2 ^ 64) with 18446744073709551616 in *. simpl.
    rewrite Z.min_r by lia. done.
Qed.

(** [ParseInt] on a numeral with a sign in front. *)
Lemma ParseInt_signed_digits (s : string) :
  all_digits s = true → s ≠ "" →
  fst (strconv.ParseInt (String "+" s) 64) = Z.min (decimal s) (2 ^ 63 - 1) /\
  fst (strconv.ParseInt (String "-" s) 64) = Z.max (- decimal s) (- 2 ^ 63).
Proof.
  intros Hd Hs.
  assert (Hnn : 0 <= decimal s) by (by apply (decimal_from_mono s 0)).
  unfold strconv.ParseInt.
  rewrite (bool_decide_true ("+"%char = "+"%char)) by done.
  rewrite (bool_decide_false ("+"%char = "-"%char)) by done.
  rewrite (bool_decide_true ("-"%char = "-"%char)) by done.
  rewrite (bool_decide_false ("-"%char = "+"%char)) by done.
  simpl orb. simpl negb.
  change (2 ^ (64 - 1)) with 9223372036854775808.
  change (2 ^ 63) with 9223372036854775808.
  destruct (Z.le_gt_cases (decimal s) (2 ^ 64 - 1)) as [Hle | Hgt].
  - assert (Hrun : strconv.ParseUint s 64 = (decimal s, None))
      by (apply ParseUint_ok_iff; [lia | done]).
    rewrite Hrun. simpl andb. split.
    + destruct (Z.leb_spec 9223372036854775808 (decimal s)); simpl.
      * by rewrite Z.min_r by lia.
      * rewrite Z.min_l by lia. apply int64_small.
        change (2 ^ 63) with 9223372036854775808. lia.
    + destruct (Z.ltb_spec 9223372036854775808 (decimal s)); simpl.
      * by rewrite Z.max_r by lia.
      * rewrite Z.max_l by lia.
        destruct (decide (decimal s = 9223372036854775808)) as [-> | Hne]; [done |].
        rewrite (int64_small (decimal s))
          by (change (2 ^ 63) with 9223372036854775808; lia).
        apply int64_small. change (2 ^ 63) with 9223372036854775808. lia.
  - rewrite ParseUint_digits_overflow; [| lia | done | lia].
    change (2 ^ 64) with 18446744073709551616 in *. simpl. split.
    + by rewrite Z.min_r by lia.
    + by rewrite Z.max_r by lia.
Qed.

(** ** Timestamp *)

(** X1. [Timestamp] reads back what [SetTimestamp] wrote, for every [int64]
    and whatever the record held before. *)
Theorem Timestamp_after_SetTimestamp (t : Z) (m : Meta) :
  - 2 ^ 63 <= t < 2 ^ 63 →
  Timestamp (SetTimestamp t m) = t /\
  (∀ k, k ≠ MetaTimestamp → SetTimestamp t m !! k = m !! k).
Proof.
  intros Ht. split.
  - unfold Timestamp, SetTimestamp. rewrite index_insert_eq.
    by rewrite ParseInt_FormatInt.
  - intros k Hk. unfold SetTimestamp. by rewrite lookup_insert_ne.
Qed.

Lemma Timestamp_after_SetTimestamp_witness :
  - 2 ^ 63 <= - 9223372036854775808 < 2 ^ 63 /\
  Timestamp (SetTimestamp (- 9223372036854775808) (<["tm" := "junk"]> ∅))
  = - 9223372036854775808.
Proof.
  assert (Hr : - 2 ^ 63 <= - 9223372036854775808 < 2 ^ 63) by (split; by vm_compute).
  split; [exact Hr |].
  exact (proj1 (Timestamp_after_SetTimestamp _ (<["tm" := "junk"]> ∅) Hr)).
Defined.

(** X3. [Timestamp] is 0 when the key is missing, and when the stored
    string, after one optional sign, is empty or does not start with a
    digit. *)
Theorem Timestamp_zero_without_digits (m : Meta) :
  m !! MetaTimestamp = None \/
  (∃ s, m !! MetaTimestamp = Some s /\
        match unsigned_part s with
        | EmptyString => True
        | String c _ => isDigit c = false
        end) →
  Timestamp m = 0.
Proof.
  intros [Habs | (s & Hs & Hrest)]; unfold Timestamp.
  - by rewrite (index_absent _ _ Habs).
  - rewrite (index_lookup _ _ _ Hs). clear Hs.
    pose proof (ParseUint_no_digit (unsigned_part s) 64 Hrest) as Hrun.
    unfold strconv.ParseInt. destruct s as [| c rest]; [done |].
    unfold unsigned_part in Hrun. cbv zeta.
    destruct (bool_decide (c = "+"%char) || bool_decide (c = "-"%char));
      by rewrite Hrun.
Qed.

Lemma Timestamp_zero_without_digits_witness :
  Timestamp (<["tm" := "-x17"]> (<["label" := "savings"]> ∅)) = 0.
Proof.
  apply Timestamp_zero_without_digits. right. exists "-x17". split; [| reflexivity].
  meta_lookup.
Defined.

(** X4. On a stored numeral [Timestamp] saturates: digits with an optional
    plus sign read as their decimal value, or as the largest [int64] when the
    value is above it; digits after a minus sign read as the opposite of
    their value, or as the least [int64] when that is below it. *)
Theorem Timestamp_numeral_saturates (m : Meta) (ds : string) :
  all_digits ds = true → ds ≠ "" →
  (m !! MetaTimestamp = Some ds \/ m !! MetaTimestamp = Some (String "+" ds) →
   Timestamp m = Z.min (decimal ds) (2 ^ 63 - 1)) /\
  (m !! MetaTimestamp = Some (String "-" ds) →
   Timestamp m = Z.max (- decimal ds) (- 2 ^ 63)).
Proof.
  intros Hd Hne.
  pose proof (ParseInt_digits ds Hd Hne) as H0.
  destruct (ParseInt_signed_digits ds Hd Hne) as [Hplus Hminus].
  unfold Timestamp. split.
  - intros [Hs | Hs]; rewrite (index_lookup _ _ _ Hs).
    + by destruct (strconv.ParseInt ds 64).
    + by destruct (strconv.ParseInt (String "+" ds) 64).
  - intros Hs. rewrite (index_lookup _ _ _ Hs).
    by destruct (strconv.ParseInt (String "-" ds) 64).
Qed.

Lemma Timestamp_numeral_saturates_witness :
  Timestamp (<["tm" := "0099999999999999999999"]> ∅) = 2 ^ 63 - 1 /\
  Timestamp (<["tm" := "-0012"]> ∅) = - 12.
Proof.
  split.
  - apply (proj1 (Timestamp_numeral_saturates
                    (<["tm" := "0099999999999999999999"]> ∅) "0099999999999999999999"
                    eq_refl ltac:(discriminate))).
    left. meta_lookup.
  - apply (proj2 (Timestamp_numeral_saturates (<["tm" := "-0012"]> ∅) "0012"
                    eq_refl ltac:(discriminate))).
    meta_lookup.
Defined.

(** ** BIP-44 coin and encryption flag: the accepted stored values *)

(** X2. [Bip44Coin] reads back what [SetBip44Coin] wrote, for every [uint32]
    and whatever the record held before, and [SetBip44Coin] assigns no other
    key. *)
Theorem Bip44Coin_after_SetBip44Coin (ct : Z) (m : Meta) :
  0 <= ct < 2 ^ 32 →
  Bip44Coin (SetBip44Coin ct m) = Return (ct, true) /\
  (∀ k, k ≠ MetaBip44Coin → SetBip44Coin ct m !! k = m !! k).
Proof.
  intros Hct. split.
  - unfold Bip44Coin, SetBip44Coin. rewrite lookup_insert_eq.
    change (2 ^ 32) with 4294967296 in Hct.
    assert (Hu : uint64 ct = ct).
    { unfold uint64. change (2 ^ 64) with 18446744073709551616. rewrite Z.mod_small; lia. }
    rewrite Hu, ParseUint_FormatUint; [| lia | change (2 ^ 32) with 4294967296; lia].
    unfold bip44_CoinType, uint32. change (2 ^ 32) with 4294967296.
    by rewrite Z.mod_small by lia.
  - intros k Hk. unfold SetBip44Coin. by rewrite lookup_insert_ne.
Qed.

Lemma Bip44Coin_after_SetBip44Coin_witness :
  0 <= 4294967295 < 2 ^ 32 /\
  Bip44Coin (SetBip44Coin 4294967295 (<["bip44Coin" := "junk"]> ∅)) = Return (4294967295, true).
Proof.
  assert (Hr : 0 <= 4294967295 < 2 ^ 32) by (split; by vm_compute).
  split; [exact Hr |].
  exact (proj1 (Bip44Coin_after_SetBip44Coin _ (<["bip44Coin" := "junk"]> ∅) Hr)).
Defined.

(** X5. When [Bip44Coin] returns: either the key is missing and the result is
    [(0, false)], or the stored string is a non-empty sequence of decimal
    digits of value at most [2^32 - 1] and the result is that value with
    [true].  On every other stored string it panics. *)
Theorem Bip44Coin_returns_iff (m : Meta) (x : Z) (ok : bool) :
  Bip44Coin m = Return (x, ok)
  ↔ (m !! MetaBip44Coin = None /\ x = 0 /\ ok = false) \/
    (∃ s, m !! MetaBip44Coin = Some s /\ s ≠ "" /\ all_digits s = true /\
          decimal s <= 2 ^ 32 - 1 /\ x = decimal s /\ ok = true).
Proof.
  unfold Bip44Coin. destruct (m !! MetaBip44Coin) as [s |] eqn:Hm.
  - destruct (strconv.ParseUint s 32) as [y [e |]] eqn:Hrun.
    + split; [discriminate |]. intros [(? & _) | (s' & [= <-] & Hs & Hd & Hle & _)]; [done |].
      assert (Hok : strconv.ParseUint s 32 = (decimal s, None))
        by (apply ParseUint_ok_iff; [lia | done]).
      congruence.
    + apply ParseUint_ok_iff in Hrun as (Hs & Hd & Hle & ->); [| lia].
      assert (Hnn : 0 <= decimal s) by (by apply (decimal_from_mono s 0)).
      assert (Hsmall : bip44_CoinType (decimal s) = decimal s).
      { unfold bip44_CoinType, uint32. change (2 ^ 32) with 4294967296 in *.
        apply Z.mod_small. lia. }
      rewrite Hsmall. split.
      * intros [= <- <-]. right. exists s. done.
      * intros [(? & _) | (s' & [= <-] & _ & _ & _ & -> & ->)]; done.
  - split.
    + intros [= <- <-]. by left.
    + intros [(_ & -> & ->) | (s & ? & _)]; done.
Qed.

(** X6. When [IsEncrypted] returns: [false] for a missing key, [true] for one
    of the six spellings of true, [false] for one of the six spellings of
    false.  On every other stored string it panics. *)
Theorem IsEncrypted_returns_iff (m : Meta) (b : bool) :
  IsEncrypted m = Return b
  ↔ (m !! MetaEncrypted = None /\ b = false) \/
    (∃ s, m !! MetaEncrypted = Some s /\
          ((s ∈ ["1"; "t"; "T"; "true"; "TRUE"; "True"] /\ b = true) \/
           (s ∈ ["0"; "f"; "F"; "false"; "FALSE"; "False"] /\ b = false))).
Proof.
  unfold IsEncrypted. destruct (m !! MetaEncrypted) as [s |] eqn:Hm.
  - unfold strconv.ParseBool.
    case_bool_decide as Ht; [| case_bool_decide as Hf].
    + split.
      * intros [= <-]. right. exists s. split; [done |]. by left.
      * intros [(? & _) | (s' & [= <-] & [(_ & ->) | (Hf & ->)])]; [done | done |].
        exfalso. revert Ht Hf. rewrite !elem_of_cons, !elem_of_nil.
        intros Ht Hf. destruct_or!; congruence.
    + split.
      * intros [= <-]. right. exists s. split; [done |]. by right.
      * intros [(? & _) | (s' & [= <-] & [(? & _) | (_ & ->)])]; done.
    + split; [discriminate |].
      intros [(? & _) | (s' & [= <-] & [(? & _) | (? & _)])]; done.
  - split.
    + intros [= <-]. by left.
    + intros [(_ & ->) | (s & ? & _)]; done.
Qed.

(** ** Coin type resolution, continued *)

(** X7. What [ResolveCoinType] returns: without an error, one of the two
    coin type constants, which resolves to itself; with an error, the empty
    coin type and the invalid coin type error. *)
Theorem ResolveCoinType_result (caseLower : Z → Z) (s : string) :
  match ResolveCoinType caseLower s with
  | (ct, None) =>
      (ct = CoinTypeSkycoin \/ ct = CoinTypeBitcoin) /\
      ResolveCoinType caseLower ct = (ct, None)
  | (ct, Some e) => ct = "" /\ e = errorString "invalid coin type"
  end.
Proof.
  unfold ResolveCoinType at 1.
  destruct (bool_decide _ || bool_decide _); [by split; [left |] |].
  destruct (bool_decide _ || bool_decide _); [by split; [right |] |].
  done.
Qed.

Lemma lowerASCII_isASCII (s : string) :
  gostrings.isASCII s = true → gostrings.isASCII (gostrings.lowerASCII s) = true.
Proof.
  induction s as [| c s IH]; [done |]. simpl.
  pose proof (byte_of_range c) as Hc.
  destruct (Z.leb_spec utf8.RuneSelf (byte_of c)) as [| Hlt]; [done |].
  intros Hs. unfold utf8.RuneSelf in *.
  destruct (gostrings.isUpper (byte_of c)) eqn:Hup.
  - unfold gostrings.isUpper in Hup. unfold byte_of, ascii_of.
    rewrite N_ascii_embedding by (fold (byte_of c); lia).
    fold (byte_of c). rewrite Z2N.id by lia.
    destruct (Z.leb_spec 128 (byte_of c + (97 - 65))); [lia | auto].
  - destruct (Z.leb_spec 128 (byte_of c)); [lia | auto].
Qed.

(** X8. On ASCII input the resolution does not depend on letter case: two
    ASCII strings with the same lower-casing resolve alike, and the case
    table of Unicode plays no part. *)
Theorem ResolveCoinType_ASCII_case_insensitive (f g : Z → Z) (s t : string) :
  gostrings.isASCII s = true → gostrings.isASCII t = true →
  gostrings.lowerASCII s = gostrings.lowerASCII t →
  ResolveCoinType f s = ResolveCoinType g t.
Proof.
  intros Hs Ht Heq. unfold ResolveCoinType.
  by rewrite (ToLower_ASCII f s Hs), (ToLower_ASCII g t Ht), Heq.
Qed.

Lemma ResolveCoinType_ASCII_case_insensitive_witness :
  ResolveCoinType gostrings.caseLower_fragment "bItCoIn" = ResolveCoinType (fun r => r) "BITCOIN".
Proof.
  apply ResolveCoinType_ASCII_case_insensitive; reflexivity.
Defined.

(** ** Fields *)

(** Every position of a list of fields given in full, one goal for each. *)
Ltac field_cases i H :=
  destruct i as [| i];
  [ injection H as <- <-
  | simpl in H; first [ discriminate H | field_cases i H ] ].

(** X9. The ten string fields are independent: a setter makes its own getter
    return the value set and leaves what the other nine getters return
    unchanged. *)
Theorem string_fields_independent (i j : nat)
    (get_i get_j : Meta → string) (set_i set_j : string → Meta → Meta)
    (v : string) (m : Meta) :
  string_fields !! i = Some (get_i, set_i) →
  string_fields !! j = Some (get_j, set_j) →
  get_j (set_i v m) = if decide (i = j) then v else get_j m.
Proof.
  intros Hi Hj. unfold string_fields in *.
  field_cases i Hi; field_cases j Hj; meta_lookup.
Qed.

Lemma string_fields_independent_witness :
  Seed (SetLabel "savings" (SetSeed "abandon" ∅)) = Seed (SetSeed "abandon" ∅).
Proof.
  exact (string_fields_independent 2 4 Label Seed SetLabel SetSeed "savings"
           (SetSeed "abandon" ∅) eq_refl eq_refl).
Defined.

(** Equality of two records built by assignments, key by key. *)
Ltac meta_ext :=
  apply map_eq; intros ?; autounfold with meta_unfold;
  rewrite !lookup_insert; repeat case_decide; congruence.

(** X10. The encryption transitions compose as the last one alone, as maps:
    a transition overrides the one before it.  [SetEncrypted] keeps the
    plaintext seed fields as they are, and [SetDecrypted] does not bring
    them back. *)
Theorem encryption_transitions_compose (a a' : crypto_CryptoType) (b b' : string) (m : Meta) :
  SetEncrypted a' b' (SetEncrypted a b m) = SetEncrypted a' b' m /\
  SetDecrypted (SetEncrypted a b m) = SetDecrypted m /\
  SetEncrypted a b (SetDecrypted m) = SetEncrypted a b m /\
  SetDecrypted (SetDecrypted m) = SetDecrypted m /\
  Seed (SetEncrypted a b m) = Seed m /\
  LastSeed (SetEncrypted a b m) = LastSeed m /\
  SeedPassphrase (SetEncrypted a b m) = SeedPassphrase m /\
  Seed (SetDecrypted (SetEncrypted a b (EraseSeeds m))) = "".
Proof.
  repeat split; try (by meta_lookup); meta_ext.
Qed.

(** ** Sequences of calls *)

(** A call leaves the entries outside its footprint as they are. *)
Lemma exec_other_keys (c : call) (m : Meta) (k : string) :
  k ∉ keys_of c → exec c m !! k = m !! k.
Proof.
  intros Hk. destruct c; simpl in *;
    rewrite ?not_elem_of_cons in Hk; destruct_and?;
    autounfold with meta_unfold in *; by rewrite ?lookup_insert_ne.
Qed.

(** X12. Every assigning method assigns the keys of its footprint and no
    other: entries under other keys are unchanged, and the keys of the
    footprint are present afterwards.  No method assigns [type] or
    [accountsHash]. *)
Theorem exec_footprint (c : call) (m : Meta) (k : string) :
  (k ∉ keys_of c → exec c m !! k = m !! k) /\
  (k ∈ keys_of c → is_Some (exec c m !! k)) /\
  (MetaType ∉ keys_of c) /\ (MetaAccountsHash ∉ keys_of c).
Proof.
  split; [| split; [| split]].
  - apply exec_other_keys.
  - intros Hk. destruct c; simpl in *;
      rewrite ?elem_of_cons, ?elem_of_nil in Hk; destruct_or?; try done; subst k;
      meta_lookup.
  - destruct c; simpl; rewrite ?not_elem_of_cons; repeat split; (done || apply not_elem_of_nil).
  - destruct c; simpl; rewrite ?not_elem_of_cons; repeat split; (done || apply not_elem_of_nil).
Qed.

Lemma run_snoc (cs : list call) (c : call) (m : Meta) :
  run (cs ++ [c]) m = exec c (run cs m).
Proof. unfold run. by rewrite foldl_app. Qed.

(** The three typed reads look at one key each. *)
Lemma typed_reads_same_entries (m m' : Meta) :
  (m' !! MetaEncrypted = m !! MetaEncrypted → IsEncrypted m' = IsEncrypted m) /\
  (m' !! MetaBip44Coin = m !! MetaBip44Coin → Bip44Coin m' = Bip44Coin m) /\
  (m' !! MetaTimestamp = m !! MetaTimestamp → Timestamp m' = Timestamp m).
Proof.
  unfold IsEncrypted, Bip44Coin, Timestamp, index.
  repeat split; by intros ->.
Qed.

(** X11. After any sequence of well-typed calls the typed reads return what
    the last typed write stored: [IsEncrypted] is the last encryption
    transition, [Bip44Coin] the argument of the last [SetBip44Coin],
    [Timestamp] the argument of the last [SetTimestamp]; a read with no such
    call in the sequence is what it was before the sequence.  In particular
    a record built from the empty one by these methods never makes
    [IsEncrypted] or [Bip44Coin] panic. *)
Theorem typed_reads_after_calls (cs : list call) (m : Meta) :
  Forall well_typed cs →
  IsEncrypted (run cs m)
    = match last_transition cs with Some b => Return b | None => IsEncrypted m end /\
  Bip44Coin (run cs m)
    = match last_bip44 cs with Some ct => Return (ct, true) | None => Bip44Coin m end /\
  Timestamp (run cs m)
    = match last_timestamp cs with Some t => t | None => Timestamp m end.
Proof.
  induction cs as [| c cs IH] using rev_ind; intros Hty; [done |].
  apply Forall_app in Hty as [Hcs Hc]. rewrite Forall_singleton in Hc.
  destruct (IH Hcs) as (IHe & IHb & IHt). clear IH.
  rewrite run_snoc. unfold last_transition, last_bip44, last_timestamp.
  rewrite !foldl_app. cbn [foldl].
  fold (last_transition cs) (last_bip44 cs) (last_timestamp cs).
  pose proof (typed_reads_same_entries (run cs m) (exec c (run cs m))) as (He & Hb & Ht).
  pose proof (exec_other_keys c (run cs m)) as Hother.
  assert (Hkeep : ∀ k, bool_decide (k ∈ keys_of c) = false →
                       exec c (run cs m) !! k = run cs m !! k).
  { intros k Hk. apply Hother. by apply bool_decide_eq_false in Hk. }
  destruct c; simpl in Hc;
    (split; [| split]);
    try (rewrite He by (by apply Hkeep); exact IHe);
    try (rewrite Hb by (by apply Hkeep); exact IHb);
    try (rewrite Ht by (by apply Hkeep); exact IHt).
  - cbn [exec]. unfold Bip44Coin, SetBip44Coin. rewrite lookup_insert_eq.
    change (2 ^ 32) with 4294967296 in Hc.
    assert (Hu : uint64 ct = ct).
    { unfold uint64. change (2 ^ 64) with 18446744073709551616. rewrite Z.mod_small; lia. }
    rewrite Hu, ParseUint_FormatUint; [| lia | change (2 ^ 32) with 4294967296; lia].
    unfold bip44_CoinType, uint32. change (2 ^ 32) with 4294967296.
    by rewrite Z.mod_small by lia.
  - cbn [exec]. unfold IsEncrypted. by meta_lookup.
  - cbn [exec]. unfold IsEncrypted. by meta_lookup.
  - cbn [exec]. unfold Timestamp, SetTimestamp. rewrite index_insert_eq.
    by rewrite ParseInt_FormatInt.
Qed.

Lemma typed_reads_after_calls_witness :
  let cs := [CallSetEncrypted "scrypt-chacha20poly1305" "blob"; CallSetBip44Coin 8000;
             CallEraseSeeds; CallSetTimestamp 1577836800; CallSetDecrypted] in
  Forall well_typed cs /\
  IsEncrypted (run cs ∅) = Return false /\
  Bip44Coin (run cs ∅) = Return (8000, true) /\
  Timestamp (run cs ∅) = 1577836800.
Proof.
  cbv zeta.
  assert (Hty : Forall well_typed
                  [CallSetEncrypted "scrypt-chacha20poly1305" "blob"; CallSetBip44Coin 8000;
                   CallEraseSeeds; CallSetTimestamp 1577836800; CallSetDecrypted]).
  { repeat constructor; by vm_compute. }
  split; [exact Hty |].
  exact (typed_reads_after_calls _ ∅ Hty).
Defined.

Lemma Clone_independence_interleaved_witness :
  let h : store.heap := <[1%positive := SetSeed "abandon" (SetLabel "savings" ∅)]> ∅ in
  let R := store.ptr 1%positive in
  let C := (store.Clone R h).1 in
  let ops := [(R, EraseSeeds); (C, SetLabel "copy"); (R, SetCoin "skycoin")] in
  store.valid h R /\
  ∃ h2, store.calls ops (store.Clone R h).2 = Return h2 /\
        store.contents h2 C = store.effect_on C ops (store.contents h R).
Proof.
  cbv zeta.
  set (h := <[1%positive := SetSeed "abandon" (SetLabel "savings" ∅)]> ∅ : store.heap).
  set (R := store.ptr 1%positive).
  set (ops := [(R, EraseSeeds); ((store.Clone R h).1, SetLabel "copy"); (R, SetCoin "skycoin")]).
  assert (Hv : store.valid h R) by (by eexists).
  split; [exact Hv |].
  destruct (store.calls ops (store.Clone R h).2) as [h2 | e] eqn:Hrun.
  - exists h2. split; [reflexivity |].
    exact (proj2 (proj2 (Clone_independence_interleaved h R ops h2 Hv Hrun))).
  - vm_compute in Hrun. discriminate Hrun.
Defined.

(** X14. Two calls with disjoint footprints commute: the record is the same
    map whichever is made first.  So it makes no difference whether the seeds
    are erased before or after an encryption transition. *)
Theorem exec_commute_disjoint (c1 c2 : call) (m : Meta) :
  Forall (fun k => k ∉ keys_of c2) (keys_of c1) →
  exec c1 (exec c2 m) = exec c2 (exec c1 m).
Proof.
  intros Hdis.
  destruct c1, c2; simpl in *;
    rewrite ?Forall_cons, ?not_elem_of_cons in Hdis; destruct_and?;
    first [ congruence | meta_ext ].
Qed.

Lemma exec_commute_disjoint_witness :
  EraseSeeds (SetEncrypted "scrypt-chacha20poly1305" "blob" (SetSeed "abandon" ∅))
  = SetEncrypted "scrypt-chacha20poly1305" "blob" (EraseSeeds (SetSeed "abandon" ∅)).
Proof.
  apply (exec_commute_disjoint CallEraseSeeds
           (CallSetEncrypted "scrypt-chacha20poly1305" "blob") (SetSeed "abandon" ∅)).
  simpl. rewrite !Forall_cons, !not_elem_of_cons.
  repeat split; (done || apply not_elem_of_nil || apply Forall_nil_2).
Defined.

